(** * cr0ssp0st0r: the Mastodon-to-Bluesky cross-posting pipeline of [index.js]

    A shallow embedding of [index.js] and the properties of its event filter,
    text reformatter, media transloader, post assembler, thread ledger and
    ingestion loop.

    JavaScript strings are sequences of UTF-16 code units; they are modelled
    as lists of code units so that [url.length], concatenation and the
    ellipsis character U+2026 are what they are in the program.  The
    third-party libraries the script calls (string-strip-html, the grapheme
    counter, [Intl.Segmenter], the lexicon validator) and the process
    environment are the fields of the class [Externals]; the outcomes of the
    network and storage calls made while one post is processed are the fields
    of the record [World]. *)

From Stdlib Require Import ZArith List Lia Bool Ascii String.
From stdpp Require Import strings gmap list.

Local Open Scope Z_scope.

(** ** JavaScript strings *)

Abbreviation code_unit := N.
Abbreviation jsstring := (list N).

(** An ASCII literal as a JavaScript string. *)
Fixpoint str (s : string) : jsstring :=
  match s with
  | EmptyString => []
  | String a r => N_of_ascii a :: str r
  end.
Arguments str s%_string.

Definition LF : code_unit := 10%N.
(** U+2026 HORIZONTAL ELLIPSIS, one code unit. *)
Definition ELLIPSIS : code_unit := 8230%N.

Definition jsstring_eqb (a b : jsstring) : bool := bool_decide (a = b).

(** [s.startsWith(p)]. *)
Fixpoint starts_with (p s : jsstring) : bool :=
  match p, s with
  | [], _ => true
  | _ :: _, [] => false
  | a :: p', b :: s' => (a =? b)%N && starts_with p' s'
  end.

(** [s.endsWith(p)]. *)
Definition ends_with (p s : jsstring) : bool :=
  starts_with (rev p) (rev s).

(** The character class [\s] of ECMAScript regular expressions. *)
Definition is_regex_space (c : code_unit) : bool :=
  ((9 <=? c) && (c <=? 13) || (c =? 32) || (c =? 160) || (c =? 5760)
   || (8192 <=? c) && (c <=? 8202) || (c =? 8232) || (c =? 8233)
   || (c =? 8239) || (c =? 8287) || (c =? 12288) || (c =? 65279))%N.

(** A matcher tells, for the text starting at the current position, the
    length of the match that starts there (if any). *)
Definition matcher := jsstring -> option nat.

(** The patterns of the script are sequences of literal characters and
    optional white space ([\s?]). *)
Inductive atom :=
| Lit (c : code_unit)
| OptSpace.

(** Matching at the current position; [\s?] is greedy and gives the white
    space back when the rest of the pattern does not match behind it. *)
Fixpoint match_atoms (p : list atom) (s : jsstring) : option nat :=
  match p with
  | [] => Some O
  | Lit c :: p' =>
      match s with
      | d :: s' => if (c =? d)%N then S <$> match_atoms p' s' else None
      | [] => None
      end
  | OptSpace :: p' =>
      match s with
      | d :: s' =>
          if is_regex_space d then
            match match_atoms p' s' with
            | Some n => Some (S n)
            | None => match_atoms p' s
            end
          else match_atoms p' s
      | [] => match_atoms p' s
      end
  end.

(** The regular expression [/<br\s?\/>/]. *)
Definition BR_REGEX : list atom :=
  [Lit 60%N; Lit 98%N; Lit 114%N; OptSpace; Lit 47%N; Lit 62%N].

Definition match_br : matcher := match_atoms BR_REGEX.

(** A string pattern matches itself. *)
Definition match_lit (p : jsstring) : matcher := match_atoms (map Lit p).

(** [s.replaceAll(pattern, replacement)] for a pattern that never matches the
    empty string: the text is scanned from the left, each match is replaced
    and the scan resumes behind it.  [skip] counts the code units of the
    current match that are still to be dropped. *)
Fixpoint replaceAll_from (m : matcher) (repl : jsstring) (skip : nat)
    (s : jsstring) : jsstring :=
  match s with
  | [] => []
  | c :: s' =>
      match skip with
      | S k => replaceAll_from m repl k s'
      | O =>
          match m s with
          | Some n => repl ++ replaceAll_from m repl (Nat.pred n) s'
          | None => c :: replaceAll_from m repl O s'
          end
      end
  end.

Definition replaceAll (m : matcher) (repl s : jsstring) : jsstring :=
  replaceAll_from m repl O s.

(** An atom that cannot match the character [x]. *)
Definition rejects (x : code_unit) (a : atom) : Prop :=
  match a with
  | Lit c => c ≠ x
  | OptSpace => is_regex_space x = false
  end.

(** No match that starts in [a] reaches into [b]. *)
Definition local_at (m : matcher) (a b : jsstring) : Prop :=
  ∀ a1 a2, a = a1 ++ a2 -> a2 ≠ [] ->
    m (a2 ++ b) = m a2 ∧ ∀ n, m a2 = Some n -> (n <= length a2)%nat.

(** Whether the pattern matches somewhere in the text. *)
Fixpoint occurs (m : matcher) (s : jsstring) : bool :=
  match s with
  | [] => false
  | _ :: s' => bool_decide (is_Some (m s)) || occurs m s'
  end.

Definition P_CLOSE_OPEN : jsstring := str "</p><p>".

(** [content.replaceAll(/<br\s?\/>/g, "\n").replaceAll("</p><p>", "\n\n")] *)
Definition injectNewlines (content : jsstring) : jsstring :=
  replaceAll (match_lit P_CLOSE_OPEN) [LF; LF]
    (replaceAll match_br [LF] content).

(** ** Data model *)

(** A JavaScript value that is a string or [null]/[undefined] is an
    [option]; such a value is truthy when it is a non-empty string. *)
Definition truthy (v : option jsstring) : bool :=
  match v with
  | Some (_ :: _) => true
  | _ => false
  end.

Record MediaAttachment := {
  ma_type : jsstring;
  ma_url : jsstring;
  ma_description : option jsstring;
  ma_width : N;     (* meta.original.width *)
  ma_height : N;    (* meta.original.height *)
}.

Record Card := {
  card_url : jsstring;
  card_title : jsstring;
  card_description : jsstring;
  card_image : option jsstring;
}.

Record MastodonStatus := {
  id : jsstring;
  visibility : jsstring;
  muted : option bool;                 (* absent, or a boolean *)
  account_id : jsstring;               (* account.id *)
  mentions : list jsstring;
  inReplyToAccountId : option jsstring;
  inReplyToId : option jsstring;
  language : option jsstring;
  content : jsstring;
  url : jsstring;
  createdAt : jsstring;
  mediaAttachments : list MediaAttachment;
  card : option Card;
}.

(** What the streaming client delivers: an event name and a payload, which
    is a status for the events that announce one. *)
Inductive Payload :=
| PStatus (s : MastodonStatus)
| POther.

Record MastodonEvent := {
  event : jsstring;
  payload : Payload;
}.

(** The same status with other media attachments. *)
Definition withAttachments (s : MastodonStatus)
    (attachments : list MediaAttachment) : MastodonStatus :=
  {| id := id s; visibility := visibility s; muted := muted s;
     account_id := account_id s; mentions := mentions s;
     inReplyToAccountId := inReplyToAccountId s;
     inReplyToId := inReplyToId s; language := language s;
     content := content s; url := url s; createdAt := createdAt s;
     mediaAttachments := attachments; card := card s |}.

(** The identity of a record on Bluesky, as [agent.post] returns it. *)
Record PostRef := { uri : jsstring; cid : jsstring }.

Record JsonBlobRef := { j_ref : jsstring; j_mimeType : jsstring; j_size : N }.
(** A [BlobRef] of the AT protocol client; [original] is its JSON form. *)
Record BlobRef := { ref : jsstring; original : JsonBlobRef }.

Record Facet := { byteStart : N; byteEnd : N; feature : jsstring }.

Record ReplyRef := { parent : PostRef; root : PostRef }.

Record Image := {
  alt : option jsstring;
  image : option BlobRef;              (* blobs[index] *)
  aspectRatio : N * N;                 (* width, height *)
}.

Record External := {
  ext_uri : jsstring;
  ext_title : jsstring;
  ext_description : jsstring;
  ext_blob : option JsonBlobRef;       (* set only when the card has an image *)
}.

Inductive Embed :=
| EmbedImages (images : list Image)        (* app.bsky.embed.images *)
| EmbedExternal (external : External).     (* app.bsky.embed.external *)

Record BskyPost := {
  text : jsstring;
  facets : option (list Facet);
  langs : list (option jsstring);
  post_createdAt : jsstring;
  reply : option ReplyRef;
  embed : option Embed;
}.

(** The values the script stores in the ledger: [{ bsky: null }] or
    [{ bsky: { post, root } }] with [root] possibly [null]. *)
Record BskyIds := { ids_post : PostRef; ids_root : option PostRef }.
Record Entry := { bsky : option BskyIds }.

Record ValidationResult := { v_success : bool; v_error : jsstring }.

(** Exceptions. *)
Inductive Error :=
| Rejected (reason : jsstring)      (* a rejection raised by a collaborator *)
| TypeError (msg : jsstring)
| JsError (msg : jsstring)                      (* new Error(msg) *)
| JsErrorCause (msg : jsstring) (cause : Error)  (* new Error(msg, { cause }) *)
| JsErrorInvalid (msg : jsstring) (v : ValidationResult) (p : BskyPost).

Inductive result (A : Type) :=
| Ok (a : A)
| Throw (e : Error).
Arguments Ok {A} a.
Arguments Throw {A} e.

#[global] Instance result_ret : MRet result := fun A a => Ok a.
#[global] Instance result_bind : MBind result := fun A B k r =>
  match r with
  | Ok a => k a
  | Throw e => Throw e
  end.

Definition is_ok {A} (r : result A) : bool :=
  match r with Ok _ => true | Throw _ => false end.

(** ** The libraries and the environment the script relies on *)

Class Externals := {
  (** [process.env.MASTODON_ACCOUNT_ID] *)
  MASTODON_ACCOUNT_ID : jsstring;
  (** [stripHtml(s).result] of string-strip-html *)
  stripHtml : jsstring -> jsstring;
  (** [countGraphemes] of @sirpepe/shed *)
  countGraphemes : jsstring -> nat;
  (** [new Intl.Segmenter(language, { granularity: "word" }).segment(s)]:
      the segments in order, each with its [isWordLike] flag *)
  wordSegments : option jsstring -> jsstring -> list (jsstring * bool);
  (** [AppBskyFeedPost.validateRecord] *)
  validateRecord : BskyPost -> ValidationResult;
}.

(** ** Event filter *)

Definition includeEvent `{Externals} (mastodonEvent : MastodonEvent) : bool :=
  if negb (jsstring_eqb (event mastodonEvent) (str "update")) then false
  else
    match payload mastodonEvent with
    | POther => false   (* [payload.visibility] is undefined *)
    | PStatus p =>
        if negb (jsstring_eqb (visibility p) (str "public"))
           || bool_decide (muted p = Some true)
           || negb (jsstring_eqb (account_id p) MASTODON_ACCOUNT_ID)
           || (0 <? length (mentions p))%nat
           || match inReplyToAccountId p with
              | Some a => negb (jsstring_eqb a MASTODON_ACCOUNT_ID)
              | None => false
              end
        then false
        else true
    end.

(** ** Text reformatter *)

(** The text before any truncation: newlines injected, tags stripped. *)
Definition strippedText `{Externals} (mastodonStatus : MastodonStatus)
    : jsstring :=
  stripHtml (injectNewlines (content mastodonStatus)).

(** The separator put before the URL: an ellipsis and a space. *)
Definition ELLIPSIS_SPACE : jsstring := [ELLIPSIS; 32%N].

(** The [for ... of] loop over the word segments.  [Some r]: the loop
    returned [r]; [None]: the loop ran to its end. *)
Fixpoint truncateLoop `{Externals} (maxGraphemeCount : Z) (url : jsstring)
    (segments : list (jsstring * bool)) (snippet addToSnippet : jsstring)
    : option jsstring :=
  match segments with
  | [] => None
  | (segment, isWordLike) :: rest =>
      let addToSnippet := addToSnippet ++ segment in
      if isWordLike then
        if Z.of_nat (countGraphemes (snippet ++ addToSnippet))
           >=? maxGraphemeCount
        then Some (snippet ++ ELLIPSIS_SPACE ++ url)
        else truncateLoop maxGraphemeCount url rest
               (snippet ++ addToSnippet) []
      else truncateLoop maxGraphemeCount url rest snippet addToSnippet
  end.

(** The value that [reformatText] returns.  For a status whose language is
    [null] the constructor of [Intl.Segmenter] throws once the text exceeds
    300 graphemes; that exception is not represented here, and the
    statements about the long branch are made for statuses with a
    language. *)
Definition reformatText `{Externals} (mastodonStatus : MastodonStatus)
    : jsstring :=
  let text := strippedText mastodonStatus in
  if (300 <? countGraphemes text)%nat then
    let maxGraphemeCount := 300 - Z.of_nat (length (url mastodonStatus)) - 2 in
    match truncateLoop maxGraphemeCount (url mastodonStatus)
            (wordSegments (language mastodonStatus) text) [] [] with
    | Some r => r
    | None => text
    end
  else text.

(** ** Console output *)

Inductive LogLine :=
| LogSkipping      (* "Skipping post due to non-image media attachments" *)
| LogStatus (s : MastodonStatus)
| LogPostedSaved (s : MastodonStatus) (p : BskyPost) (posted : PostRef)
| ErrStorageFailed (e : Error)  (* "Cross-posting worked, but result storage failed:" *)
| ErrCrossPosting (e : Error).  (* "Failure during cross-posting:" *)

(** ** The status stream *)

Definition hasNonImage (attachments : list MediaAttachment) : bool :=
  existsb (fun a => negb (jsstring_eqb (ma_type a) (str "image"))) attachments.

(** What [getMastodonStatusStream] does with one event of the subscription:
    the status it yields (if any) and what it prints. *)
Definition streamStep `{Externals} (e : MastodonEvent)
    : option MastodonStatus * list LogLine :=
  if includeEvent e then
    match payload e with
    | PStatus p =>
        if hasNonImage (mediaAttachments p) then (None, [LogSkipping])
        else (Some p, [])
    | POther => (None, [])
    end
  else (None, []).

(** The statuses yielded for a finite run of events. *)
Definition getMastodonStatusStream `{Externals} (events : list MastodonEvent)
    : list MastodonStatus :=
  omap (fun e => fst (streamStep e)) events.

(** A status that the stream lets through. *)
Definition eligible `{Externals} (p : MastodonStatus) : Prop :=
  visibility p = str "public"
  ∧ muted p ≠ Some true
  ∧ account_id p = MASTODON_ACCOUNT_ID
  ∧ mentions p = []
  ∧ (∀ a, inReplyToAccountId p = Some a -> a = MASTODON_ACCOUNT_ID)
  ∧ (∀ a, a ∈ mediaAttachments p -> ma_type a = str "image").

(** The statuses that a run of events announces, whatever the event. *)
Definition announced (events : list MastodonEvent) : list MastodonStatus :=
  omap (fun e => match payload e with PStatus p => Some p | POther => None end)
       events.

(** ** The outside world while one status is processed *)

Record Response := {
  resp_ok : bool;
  resp_blob : result jsstring;         (* [await response.blob()] *)
}.

Record UploadResponse := {
  up_success : bool;
  up_blob : BlobRef;                   (* [data.blob] *)
}.

Record World := {
  (** [rt.detectFacets(agent)]: the facets found, or a rejection *)
  detectFacets : jsstring -> result (option (list Facet));
  (** [fetch(url)] *)
  fetch : jsstring -> result Response;
  (** [agent.uploadBlob(blob)] *)
  uploadBlob : jsstring -> result UploadResponse;
  (** the instant at which the promise of the i-th item of a batch settles *)
  settle_time : nat -> nat;
  (** [agent.post(record)] *)
  post : BskyPost -> result PostRef;
  (** a failure of [storage.getItem(key)], if one happens *)
  getItem_fault : jsstring -> option Error;
  (** a failure of [storage.setItem(key, value)], if one happens *)
  setItem_fault : jsstring -> Entry -> option Error;
}.

(** ** Thread ledger *)

(** [storage.getItem(key)]: the stored value, [undefined] ([None]) for a key
    that was never stored. *)
Definition storage_getItem (w : World) (ledger : gmap (list N) Entry)
    (key : jsstring) : result (option Entry) :=
  match getItem_fault w key with
  | Some e => Throw e
  | None => Ok (ledger !! key)
  end.

(** [storage.setItem(key, value)]: stores or replaces the value of [key]. *)
Definition storage_setItem (w : World) (ledger : gmap (list N) Entry)
    (key : jsstring) (value : Entry) : result (gmap (list N) Entry) :=
  match setItem_fault w key value with
  | Some e => Throw e
  | None => Ok (<[key := value]> ledger)
  end.

(** ** Media transloader *)

(** The body of the function mapped over the sources.  [Response] objects
    have no [code] property, so the message of a failed download reads
    "undefined". *)
Definition transloadOne (w : World) (url : jsstring) : result BlobRef :=
  let attempt : result BlobRef :=
    downloadResponse ← fetch w url;
    if negb (resp_ok downloadResponse)
    then Throw (JsError (str "Download returned status undefined"))
    else
      blob ← resp_blob downloadResponse;
      uploadResponse ← uploadBlob w blob;
      if negb (up_success uploadResponse)
      then Throw (JsError (str "Upload not successful"))
      else Ok (up_blob uploadResponse) in
  match attempt with
  | Ok b => Ok b
  | Throw error =>
      Throw (JsErrorCause (str "Transloading " ++ url ++ str " failed:") error)
  end.

(** A download or an upload of the item fails: [fetch] rejects, the
    response is not ok, its body cannot be read, [uploadBlob] rejects, or the
    upload is not acknowledged. *)
Definition downloadOrUploadFails (w : World) (url : jsstring) : bool :=
  match fetch w url with
  | Throw _ => true
  | Ok response =>
      negb (resp_ok response)
      || match resp_blob response with
         | Throw _ => true
         | Ok blob =>
             match uploadBlob w blob with
             | Throw _ => true
             | Ok uploaded => negb (up_success uploaded)
             end
         end
  end.

(** [Promise.all]: it rejects with the reason of the promise that rejects
    first, and fulfils with all the values when none rejects. *)
Fixpoint earliestRejection {A} (time : nat -> nat) (i : nat)
    (rs : list (result A)) : option (nat * Error) :=
  match rs with
  | [] => None
  | r :: rs' =>
      let later := earliestRejection time (S i) rs' in
      match r with
      | Ok _ => later
      | Throw e =>
          match later with
          | Some (t, e') =>
              if (t <? time i)%nat then Some (t, e') else Some (time i, e)
          | None => Some (time i, e)
          end
      end
  end.

Fixpoint fulfilled {A} (rs : list (result A)) : list A :=
  match rs with
  | [] => []
  | Ok a :: rs' => a :: fulfilled rs'
  | Throw _ :: rs' => fulfilled rs'
  end.

Definition promiseAll {A} (time : nat -> nat) (rs : list (result A))
    : result (list A) :=
  match earliestRejection time 0 rs with
  | Some (_, e) => Throw e
  | None => Ok (fulfilled rs)
  end.

Definition transloadMastodonMediaToBsky (w : World) (sources : list jsstring)
    : result (list BlobRef) :=
  promiseAll (settle_time w) (map (transloadOne w) sources).

Definition mastodonMediaToBskyEmbeds (w : World)
    (mediaAttachments : list MediaAttachment) : result Embed :=
  blobs ← transloadMastodonMediaToBsky w (map ma_url mediaAttachments);
  Ok (EmbedImages
        (imap (fun index attachment =>
                 {| alt := ma_description attachment;
                    image := blobs !! index;
                    aspectRatio := (ma_width attachment, ma_height attachment) |})
              mediaAttachments)).

Definition mastodonCardToBskyEmbed (w : World) (card : Card) : result Embed :=
  let embed blob :=
    EmbedExternal {| ext_uri := card_url card;
                     ext_title := card_title card;
                     ext_description := card_description card;
                     ext_blob := blob |} in
  match card_image card with
  | Some (c :: u) =>
      blobs ← transloadMastodonMediaToBsky w [c :: u];
      match blobs with
      | blob :: _ => Ok (embed (Some (original blob)))
      | [] => Throw (TypeError (str "Cannot read properties of undefined (reading 'original')"))
      end
  | _ => Ok (embed None)
  end.

(** ** Post assembler *)

(** The [if (mastodonStatus.inReplyToId) { ... }] block: the reply reference
    of the post, if it gets one. *)
Definition resolveReply (w : World) (ledger : gmap (list N) Entry)
    (mastodonStatus : MastodonStatus) : result (option ReplyRef) :=
  match inReplyToId mastodonStatus with
  | Some (c :: k) =>
      parent ← storage_getItem w ledger (c :: k);
      match parent with
      | None =>
          Throw (TypeError (str "Cannot read properties of undefined (reading 'bsky')"))
      | Some parent =>
          match bsky parent with
          | Some ids =>
              Ok (Some {| parent := ids_post ids;
                          root := default (ids_post ids) (ids_root ids) |})
          | None => Ok None
          end
      end
  | _ => Ok None
  end.

Definition resolveEmbed (w : World) (mastodonStatus : MastodonStatus)
    : result (option Embed) :=
  if (0 <? length (mediaAttachments mastodonStatus))%nat then
    embed ← mastodonMediaToBskyEmbeds w (mediaAttachments mastodonStatus);
    Ok (Some embed)
  else
    match card mastodonStatus with
    | Some c => embed ← mastodonCardToBskyEmbed w c; Ok (Some embed)
    | None => Ok None
    end.

Definition mastodonStatusToBskyPost `{Externals} (w : World)
    (ledger : gmap (list N) Entry) (mastodonStatus : MastodonStatus)
    : result BskyPost :=
  let rt_text := reformatText mastodonStatus in
  rt_facets ← detectFacets w rt_text;
  post_reply ← resolveReply w ledger mastodonStatus;
  post_embed ← resolveEmbed w mastodonStatus;
  let post := {| text := rt_text;
                 facets := rt_facets;
                 langs := [language mastodonStatus];
                 post_createdAt := createdAt mastodonStatus;
                 reply := post_reply;
                 embed := post_embed |} in
  let validationResult := validateRecord post in
  if v_success validationResult then Ok post
  else Throw (JsErrorInvalid
                (str "Failed to create bsky post: " ++ v_error validationResult)
                validationResult post).

(** ** Ingestion loop *)

(** What the loop reads and changes: the ledger kept by the storage engine,
    the records published on Bluesky, the console, and the history of the
    [storage.setItem] calls that completed (oldest first). *)
Record State := {
  ledger : gmap (list N) Entry;
  published : list (BskyPost * PostRef);
  console : list LogLine;
  setItems : list (jsstring * Entry);
}.

Definition print (lines : list LogLine) (s : State) : State :=
  {| ledger := ledger s; published := published s;
     console := console s ++ lines; setItems := setItems s |}.

Definition publish (p : BskyPost) (posted : PostRef) (s : State) : State :=
  {| ledger := ledger s; published := published s ++ [(p, posted)];
     console := console s; setItems := setItems s |}.

(** [await storage.setItem(key, value)] on the state. *)
Definition setItem (w : World) (key : jsstring) (value : Entry) (s : State)
    : result State :=
  ledger' ← storage_setItem w (ledger s) key value;
  Ok {| ledger := ledger'; published := published s;
        console := console s; setItems := setItems s ++ [(key, value)] |}.

(** The [try] block up to and including [agent.post]: the state changes
    only when the post is published. *)
Definition crossPost `{Externals} (w : World) (s : State)
    (mastodonStatus : MastodonStatus) : result (BskyPost * PostRef) :=
  bskyPost ← mastodonStatusToBskyPost w (ledger s) mastodonStatus;
  posted ← post w bskyPost;
  Ok (bskyPost, posted).

(** [{ bsky: { post: posted, root: bskyPost.reply?.root ?? null } }] *)
Definition successEntry (bskyPost : BskyPost) (posted : PostRef) : Entry :=
  {| bsky := Some {| ids_post := posted;
                     ids_root := root <$> reply bskyPost |} |}.

(** [{ bsky: null }] *)
Definition failureEntry : Entry := {| bsky := None |}.

(** The root of the thread that a recorded post belongs to: the recorded
    root, or the post itself when none is recorded
    ([parent.bsky.root || parent.bsky.post]). *)
Definition rootOf (ids : BskyIds) : PostRef :=
  default (ids_post ids) (ids_root ids).

(** The ledger after a sequence of completed writes. *)
Definition replay (ledger : gmap (list N) Entry)
    (writes : list (jsstring * Entry)) : gmap (list N) Entry :=
  foldl (fun m kv => <[fst kv := snd kv]> m) ledger writes.

(** The body of the [for await] loop.  The second component is the exception
    that leaves the body, if one does. *)
Definition processItem `{Externals} (w : World) (s : State)
    (mastodonStatus : MastodonStatus) : State * option Error :=
  let s := print [LogStatus mastodonStatus] s in
  match crossPost w s mastodonStatus with
  | Ok (bskyPost, posted) =>
      let s := publish bskyPost posted s in
      match setItem w (id mastodonStatus) (successEntry bskyPost posted) s with
      | Ok s' =>
          (print [LogPostedSaved mastodonStatus bskyPost posted] s', None)
      | Throw error => (print [ErrStorageFailed error] s, None)
      end
  | Throw error =>
      match setItem w (id mastodonStatus) failureEntry s with
      | Ok s' => (print [ErrCrossPosting error] s', None)
      | Throw error' => (s, Some error')
      end
  end.

(** The loop over a finite run of the subscription; each event comes with
    the world that would see it processed.  The loop ends early when an
    exception leaves its body. *)
Fixpoint ingest `{Externals} (input : list (MastodonEvent * World))
    (s : State) : State * option Error :=
  match input with
  | [] => (s, None)
  | (e, w) :: rest =>
      let s := print (snd (streamStep e)) s in
      match fst (streamStep e) with
      | None => ingest rest s
      | Some mastodonStatus =>
          match processItem w s mastodonStatus with
          | (s', None) => ingest rest s'
          | (s', Some error) => (s', Some error)
          end
      end
  end.

Definition initialState (ledger : gmap (list N) Entry) : State :=
  {| ledger := ledger; published := []; console := []; setItems := [] |}.

(** The ids of the statuses that a run of events delivers to the loop. *)
Definition deliveredIds `{Externals} (input : list (MastodonEvent * World)) : list jsstring :=
  map id (getMastodonStatusStream (map fst input)).

    (* cross-post failed, storing the failure entry failed *)





(** ** The libraries on ASCII text

    On text made of ASCII letters, digits, single spaces and punctuation
    marks, with well-formed tags and without character references, the
    libraries behave as follows; the concrete posts below stay within this
    fragment. *)

(** string-strip-html: the text outside the tags. *)
Fixpoint stripTags (inTag : bool) (s : jsstring) : jsstring :=
  match s with
  | [] => []
  | c :: r =>
      if inTag then stripTags (negb (c =? 62)%N) r
      else if (c =? 60)%N then stripTags true r
      else c :: stripTags false r
  end.

Definition isAlnum (c : code_unit) : bool :=
  ((48 <=? c) && (c <=? 57) || (65 <=? c) && (c <=? 90)
   || (97 <=? c) && (c <=? 122))%N.

(** [Intl.Segmenter] with word granularity: a run of letters and digits is
    one word-like segment; any other character is a segment of its own. *)
Fixpoint asciiSegments (s : jsstring) : list (jsstring * bool) :=
  match s with
  | [] => []
  | c :: r =>
      if isAlnum c then
        match asciiSegments r with
        | (w, true) :: rest => (c :: w, true) :: rest
        | rest => ([c], true) :: rest
        end
      else ([c], false) :: asciiSegments r
  end.

(** A stand-in for the validator: of the constraints of the lexicon of
    [app.bsky.feed.post] it checks the bound of 300 graphemes on the text
    only, not the formats of identifiers, languages or alt texts.  It serves
    the concrete runs below; the general statements hold for every
    validator. *)
Definition asciiValidate (p : BskyPost) : ValidationResult :=
  if (length (text p) <=? 300)%nat
  then {| v_success := true; v_error := [] |}
  else {| v_success := false;
          v_error := str "Record/text must not be longer than 300 graphemes" |}.

Definition asciiExternals : Externals :=
  {| MASTODON_ACCOUNT_ID := str "42";
     stripHtml := stripTags false;
     countGraphemes := fun s => length s;
     wordSegments := fun _ s => asciiSegments s;
     validateRecord := asciiValidate |}.

(** ** Concrete posts and worlds *)

Definition EN : option jsstring := Some (str "en").

(** A public post of the tracked account. *)
Definition ownPost (id content : jsstring) (inReplyToId : option jsstring)
    (attachments : list MediaAttachment) : MastodonStatus :=
  {| id := id; visibility := str "public"; muted := Some false;
     account_id := str "42"; mentions := [];
     inReplyToAccountId :=
       match inReplyToId with Some _ => Some (str "42") | None => None end;
     inReplyToId := inReplyToId; language := EN; content := content;
     url := str "https://example/" ++ id;
     createdAt := str "2024-11-20T10:00:00.000Z";
     mediaAttachments := attachments; card := None |}.

Definition updateOf (s : MastodonStatus) : MastodonEvent :=
  {| event := str "update"; payload := PStatus s |}.

Definition helloWorld : MastodonStatus :=
  ownPost (str "1") (str "<p>Hello</p><p>World</p>") None [].

(** "wow" followed by 300 exclamation marks. *)
Definition wowPost : MastodonStatus :=
  ownPost (str "2") (str "<p>wow" ++ repeat 33%N 300 ++ str "</p>") None [].

Definition videoPost : MastodonStatus :=
  ownPost (str "3") (str "<p>clip</p>") None
    [ {| ma_type := str "video"; ma_url := str "https://example/v.mp4";
         ma_description := None; ma_width := 640; ma_height := 480 |} ].

(** A reply to the post "1". *)
Definition replyPost : MastodonStatus :=
  ownPost (str "4") (str "<p>more</p>") (Some (str "1")) [].

Definition picture (u : string) : MediaAttachment :=
  {| ma_type := str "image"; ma_url := str u;
     ma_description := Some (str "a picture");
     ma_width := 800; ma_height := 600 |}.

Definition galleryPost : MastodonStatus :=
  ownPost (str "5") (str "<p>two pictures</p>") None
    [ picture "https://example/a.png"; picture "https://example/b.png" ].

Definition refOf (key : jsstring) : PostRef :=
  {| uri := str "at://did:plc:me/app.bsky.feed.post/" ++ key;
     cid := str "bafy" ++ key |}.

Definition blobOf (bytes : jsstring) : BlobRef :=
  {| ref := bytes;
     original := {| j_ref := bytes; j_mimeType := str "image/png";
                    j_size := N.of_nat (length bytes) |} |}.

(** A world in which every call succeeds. *)
Definition calmWorld : World :=
  {| detectFacets := fun _ => Ok None;
     fetch := fun u => Ok {| resp_ok := true; resp_blob := Ok u |};
     uploadBlob := fun b => Ok {| up_success := true; up_blob := blobOf b |};
     settle_time := fun i => i;
     post := fun p => Ok (refOf (text p));
     getItem_fault := fun _ => None;
     setItem_fault := fun _ _ => None |}.

(** Bluesky rejects every post. *)
Definition rejectingWorld : World :=
  {| detectFacets := detectFacets calmWorld;
     fetch := fetch calmWorld; uploadBlob := uploadBlob calmWorld;
     settle_time := settle_time calmWorld;
     post := fun _ => Throw (Rejected (str "UpstreamFailure"));
     getItem_fault := fun _ => None;
     setItem_fault := fun _ _ => None |}.

(** The storage directory cannot be written. *)
Definition diskFullWorld : World :=
  {| detectFacets := detectFacets calmWorld;
     fetch := fetch calmWorld; uploadBlob := uploadBlob calmWorld;
     settle_time := settle_time calmWorld;
     post := post calmWorld;
     getItem_fault := fun _ => None;
     setItem_fault := fun _ _ => Some (Rejected (str "ENOSPC")) |}.

(** Bluesky rejects every post and the storage directory cannot be
    written. *)
Definition stormWorld : World :=
  {| detectFacets := detectFacets calmWorld;
     fetch := fetch calmWorld; uploadBlob := uploadBlob calmWorld;
     settle_time := settle_time calmWorld;
     post := post rejectingWorld;
     getItem_fault := fun _ => None;
     setItem_fault := setItem_fault diskFullWorld |}.

(** The second picture cannot be downloaded. *)
Definition brokenImageWorld : World :=
  {| detectFacets := detectFacets calmWorld;
     fetch := fun u =>
       if jsstring_eqb u (str "https://example/b.png")
       then Ok {| resp_ok := false; resp_blob := Ok [] |}
       else fetch calmWorld u;
     uploadBlob := uploadBlob calmWorld;
     settle_time := settle_time calmWorld;
     post := post calmWorld;
     getItem_fault := fun _ => None;
     setItem_fault := fun _ _ => None |}.

(** The text of [helloWorld] once reformatted. *)
Definition HELLO_WORLD : jsstring := str "Hello" ++ [LF; LF] ++ str "World".

(** "lorem" eighty times, separated by spaces: 479 characters. *)
Definition loremPost : MastodonStatus :=
  ownPost (str "6")
    (str "<p>lorem" ++ concat (repeat (str " lorem") 79) ++ str "</p>") None [].

(** One word of 301 letters. *)
Definition tokenPost : MastodonStatus :=
  ownPost (str "7") (str "<p>" ++ repeat 97%N 301 ++ str "</p>") None [].

(** The gallery with a link-preview card as well. *)
Definition galleryWithCard : MastodonStatus :=
  {| id := str "8"; visibility := str "public"; muted := Some false;
     account_id := str "42"; mentions := [];
     inReplyToAccountId := None; inReplyToId := None; language := EN;
     content := str "<p>pictures and a link</p>";
     url := str "https://example/8";
     createdAt := str "2024-11-20T10:00:00.000Z";
     mediaAttachments := mediaAttachments galleryPost;
     card := Some {| card_url := str "https://example.org/";
                     card_title := str "Example";
                     card_description := str "An example";
                     card_image := Some (str "https://example.org/t.png") |} |}.

(** The state after Bluesky has rejected [helloWorld]. *)
Definition afterFailedHello : State :=
  fst (@ingest asciiExternals [(updateOf helloWorld, rejectingWorld)]
         (initialState ∅)).

(** The state after [helloWorld] has been cross-posted in a calm world. *)
Definition afterHello : State :=
  fst (@ingest asciiExternals [(updateOf helloWorld, calmWorld)]
         (initialState ∅)).

(** The run of events in which the status "1" is delivered twice: Bluesky
    rejects it the first time and accepts it the second time. *)
Definition deliveredTwice : list (MastodonEvent * World) :=
  [(updateOf helloWorld, rejectingWorld); (updateOf helloWorld, calmWorld)].

(** A root post and then a reply to it. *)
Definition rootThenReply : list (MastodonEvent * World) :=
  [(updateOf helloWorld, calmWorld); (updateOf replyPost, calmWorld)].

(** * Properties *)

(** ** Pattern replacement *)

Lemma replaceAll_from_drop m repl k s :
  replaceAll_from m repl k s = replaceAll m repl (drop k s).
Proof.
  revert k. induction s as [|c s IH]; intros [|k]; try reflexivity.
  cbn [replaceAll_from drop]. apply IH.
Qed.

Lemma match_atoms_bound p s n :
  match_atoms p s = Some n -> (n <= length s)%nat.
Proof.
  revert s n. induction p as [|[c|] p IH]; intros s n; cbn [match_atoms].
  - intros [= <-]. lia.
  - destruct s as [|d s]; [discriminate|].
    destruct (c =? d)%N; [|discriminate].
    destruct (match_atoms p s) as [k|] eqn:E; [|discriminate].
    intros [= <-]. apply IH in E. cbn. lia.
  - destruct s as [|d s]; [apply IH|].
    destruct (is_regex_space d); [|apply IH].
    destruct (match_atoms p s) as [k|] eqn:E.
    + intros [= <-]. apply IH in E. cbn. lia.
    + apply IH.
Qed.

(** A match never extends over a character that the pattern rejects. *)
Lemma match_atoms_stops p x a b :
  Forall (rejects x) p -> p ≠ [] ->
  match_atoms p (a ++ x :: b) = match_atoms p a.
Proof.
  intros Hp. revert a. induction Hp as [|[c|] p Hc Hp IH]; intros a Hne.
  - done.
  - cbn [match_atoms]. destruct a as [|d a]; cbn [app].
    + cbn in Hc. by destruct (N.eqb_spec c x).
    + destruct (c =? d)%N; [|done].
      destruct p as [|q p]; [done|]. by rewrite IH.
  - cbn [match_atoms]. cbn in Hc. destruct p as [|q p].
    + destruct a as [|d a]; cbn [app match_atoms]; [by rewrite Hc|].
      by destruct (is_regex_space d).
    + assert (Hq : ∀ a, match_atoms (q :: p) (a ++ x :: b)
                        = match_atoms (q :: p) a) by (intros; by apply IH).
      destruct a as [|d a]; cbn [app].
      * rewrite Hc. apply (Hq []).
      * pose proof (Hq (d :: a)) as Hda. cbn [app] in Hda.
        by rewrite (Hq a), Hda.
Qed.

Lemma local_at_tail m c a b : local_at m (c :: a) b -> local_at m a b.
Proof. intros H a1 a2 -> Hne. by apply (H (c :: a1) a2). Qed.

Lemma replaceAll_from_app m repl a b k :
  (k <= length a)%nat -> local_at m a b ->
  replaceAll_from m repl k (a ++ b)
  = replaceAll_from m repl k a ++ replaceAll m repl b.
Proof.
  revert k. induction a as [|c a IH]; intros k Hk Hloc.
  - cbn in Hk. assert (k = O) as -> by lia. reflexivity.
  - cbn [app replaceAll_from]. destruct k as [|k].
    + destruct (Hloc [] (c :: a) eq_refl) as [Hm Hn]; [done|].
      cbn [app] in Hm. rewrite Hm.
      destruct (m (c :: a)) as [n|] eqn:E.
      * specialize (Hn n eq_refl). cbn in Hn.
        rewrite IH; [by rewrite app_assoc | lia | by eapply local_at_tail].
      * rewrite IH; [done | lia | by eapply local_at_tail].
    + apply IH; [cbn in Hk; lia | by eapply local_at_tail].
Qed.

Lemma replaceAll_app m repl a b :
  local_at m a b ->
  replaceAll m repl (a ++ b) = replaceAll m repl a ++ replaceAll m repl b.
Proof. apply replaceAll_from_app. lia. Qed.

Lemma local_at_rejected p x a b :
  Forall (rejects x) p -> p ≠ [] -> local_at (match_atoms p) a (x :: b).
Proof.
  intros Hp Hne a1 a2 _ _. split.
  - by apply match_atoms_stops.
  - intros n. apply match_atoms_bound.
Qed.

(** The same for a pattern whose first literal may be [x] itself. *)
Lemma local_at_rejected_tail c p x a b :
  Forall (rejects x) p -> p ≠ [] ->
  local_at (match_atoms (Lit c :: p)) a (x :: b).
Proof.
  intros Hp Hne a1 a2 _ Ha2. split.
  - destruct a2 as [|d a2]; [done|]. cbn [app match_atoms].
    by rewrite match_atoms_stops.
  - intros n. apply match_atoms_bound.
Qed.

Lemma occurs_false_replaceAll m repl s :
  occurs m s = false -> replaceAll m repl s = s.
Proof.
  unfold replaceAll. induction s as [|c s IH]; [done|].
  cbn [occurs replaceAll_from]. intros [Hm Hs]%orb_false_elim.
  apply bool_decide_eq_false in Hm.
  destruct (m (c :: s)) as [n|]; [by destruct Hm|].
  by rewrite IH.
Qed.

Lemma occurs_without_first c p s :
  c ∉ s -> occurs (match_atoms (Lit c :: p)) s = false.
Proof.
  induction s as [|d s IH]; [done|].
  intros Hc. apply not_elem_of_cons in Hc as [Hne Hc].
  assert (match_atoms (Lit c :: p) (d :: s) = None) as Hm.
  { cbn [match_atoms]. by destruct (N.eqb_spec c d). }
  cbn [occurs]. rewrite Hm, IH by done. rewrite orb_false_r.
  apply bool_decide_eq_false. by intros [? ?].
Qed.

(** ** Newline injection *)

(** Two white space characters inside the tag are not a line break. *)
Example injectNewlines_ex :
  injectNewlines (str "<p>a<br/>b<br />c</p><p>d<br  />e</p>")
  = str "<p>a" ++ [LF] ++ str "b" ++ [LF] ++ str "c" ++ [LF; LF]
    ++ str "d<br  />e</p>".
Proof. vm_compute. reflexivity. Qed.

Lemma match_br_local a b : local_at match_br a (60%N :: b).
Proof.
  apply local_at_rejected_tail; [|done].
  repeat constructor; cbn; done.
Qed.

Lemma local_at_nil p a : local_at (match_atoms p) a [].
Proof.
  intros a1 a2 _ _. rewrite app_nil_r. split; [done|].
  intros n. apply match_atoms_bound.
Qed.

Lemma replaceAll_br_at_br b :
  replaceAll match_br [LF] (str "<br/>" ++ b) = LF :: replaceAll match_br [LF] b.
Proof. reflexivity. Qed.

Lemma replaceAll_br_at_br_space c b :
  is_regex_space c = true ->
  replaceAll match_br [LF] (str "<br" ++ c :: str "/>" ++ b)
  = LF :: replaceAll match_br [LF] b.
Proof.
  intros Hc. unfold replaceAll. cbn [str app replaceAll_from].
  change (N_of_ascii "<") with 60%N. change (N_of_ascii "b") with 98%N.
  change (N_of_ascii "r") with 114%N. change (N_of_ascii "/") with 47%N.
  change (N_of_ascii ">") with 62%N.
  assert (match_br (60 :: 98 :: 114 :: c :: 47 :: 62 :: b)%N = Some 6%nat) as ->.
  { unfold match_br, BR_REGEX. cbn [match_atoms N.eqb Pos.eqb fmap option_fmap option_map].
    by rewrite Hc. }
  reflexivity.
Qed.

Lemma replaceAll_br_at_boundary b :
  replaceAll match_br [LF] (P_CLOSE_OPEN ++ b)
  = P_CLOSE_OPEN ++ replaceAll match_br [LF] b.
Proof. reflexivity. Qed.

Lemma replaceAll_lit_at_boundary b :
  replaceAll (match_lit P_CLOSE_OPEN) [LF; LF] (P_CLOSE_OPEN ++ b)
  = [LF; LF] ++ replaceAll (match_lit P_CLOSE_OPEN) [LF; LF] b.
Proof. reflexivity. Qed.

Lemma replaceAll_lit_at_LF b :
  replaceAll (match_lit P_CLOSE_OPEN) [LF; LF] (LF :: b)
  = LF :: replaceAll (match_lit P_CLOSE_OPEN) [LF; LF] b.
Proof. reflexivity. Qed.

Lemma match_lit_LF_local a b : local_at (match_lit P_CLOSE_OPEN) a (LF :: b).
Proof.
  apply local_at_rejected; [|done].
  repeat constructor; cbn; done.
Qed.

Lemma match_lit_spec p s :
  match_lit p s
  = if bool_decide (take (length p) s = p) then Some (length p) else None.
Proof.
  unfold match_lit. revert s. induction p as [|c p IH]; intros s.
  - by rewrite take_0.
  - cbn [map match_atoms length]. destruct s as [|d s].
    + by rewrite bool_decide_eq_false_2.
    + cbn [take]. destruct (N.eqb_spec c d) as [<-|Hne].
      * rewrite IH. destruct (decide (take (length p) s = p)) as [E|E].
        -- rewrite !bool_decide_eq_true_2; [done | by rewrite E | done].
        -- rewrite !bool_decide_eq_false_2; [done | congruence | done].
      * rewrite bool_decide_eq_false_2; [done | congruence].
Qed.

(** No proper end of "</p><p>" is a beginning of it: a match cannot start
    before an occurrence and end inside it. *)
Lemma match_lit_boundary_local a b :
  local_at (match_lit P_CLOSE_OPEN) a (P_CLOSE_OPEN ++ b).
Proof.
  intros a1 a2 _ Hne. split; [|intros n; apply match_atoms_bound].
  rewrite !match_lit_spec. change (length P_CLOSE_OPEN) with 7%nat.
  destruct (decide (7 <= length a2)%nat) as [Hlen|Hlen].
  - by rewrite take_app_le.
  - rewrite (bool_decide_eq_false_2 (take 7 a2 = _)).
    2:{ intros E. apply (f_equal length) in E. rewrite length_take in E.
        change (length P_CLOSE_OPEN) with 7%nat in E. lia. }
    rewrite bool_decide_eq_false_2; [done|].
    rewrite take_app. intros E.
    apply (f_equal (drop (length a2))) in E.
    rewrite take_ge, drop_app_length in E by lia.
    destruct a2 as [|c1 a2]; [done|].
    do 6 (destruct a2 as [|? a2]; [cbn in E; discriminate E|]).
    cbn in Hlen. lia.
Qed.

Lemma injectNewlines_br a b :
  injectNewlines (a ++ str "<br/>" ++ b)
  = injectNewlines a ++ [LF] ++ injectNewlines b.
Proof.
  unfold injectNewlines.
  rewrite (replaceAll_app match_br) by apply match_br_local.
  rewrite replaceAll_br_at_br.
  rewrite (replaceAll_app (match_lit _)) by apply match_lit_LF_local.
  by rewrite replaceAll_lit_at_LF.
Qed.

Lemma injectNewlines_br_space c a b :
  is_regex_space c = true ->
  injectNewlines (a ++ str "<br" ++ c :: str "/>" ++ b)
  = injectNewlines a ++ [LF] ++ injectNewlines b.
Proof.
  intros Hc. unfold injectNewlines.
  rewrite (replaceAll_app match_br) by apply match_br_local.
  rewrite replaceAll_br_at_br_space by done.
  rewrite (replaceAll_app (match_lit _)) by apply match_lit_LF_local.
  by rewrite replaceAll_lit_at_LF.
Qed.

Lemma injectNewlines_paragraphs a b :
  injectNewlines (a ++ P_CLOSE_OPEN ++ b)
  = injectNewlines a ++ [LF; LF] ++ injectNewlines b.
Proof.
  unfold injectNewlines.
  rewrite (replaceAll_app match_br) by apply match_br_local.
  rewrite replaceAll_br_at_boundary.
  rewrite (replaceAll_app (match_lit _)) by apply match_lit_boundary_local.
  by rewrite replaceAll_lit_at_boundary.
Qed.

(** Text without either pattern is left alone. *)
Lemma injectNewlines_plain t :
  occurs match_br t = false -> occurs (match_lit P_CLOSE_OPEN) t = false ->
  injectNewlines t = t.
Proof.
  intros Hbr Hp. unfold injectNewlines.
  by rewrite (occurs_false_replaceAll match_br), occurs_false_replaceAll.
Qed.

Lemma no_angle_plain t :
  60%N ∉ t ->
  occurs match_br t = false ∧ occurs (match_lit P_CLOSE_OPEN) t = false.
Proof. intros H. split; by apply occurs_without_first. Qed.

Lemma starts_with_app p s : starts_with p (p ++ s) = true.
Proof.
  induction p as [|c p IH]; [by destruct s|].
  cbn [app starts_with]. by rewrite N.eqb_refl.
Qed.

Lemma ends_with_app p s : ends_with p (s ++ p) = true.
Proof. unfold ends_with. rewrite rev_app_distr. apply starts_with_app. Qed.

(** ** Text reformatter *)

Section Reformatter.
Context `{Externals}.

Lemma reformatText_short s :
  (countGraphemes (strippedText s) <= 300)%nat ->
  reformatText s = strippedText s.
Proof.
  intros Hle. unfold reformatText.
  destruct (Nat.ltb_spec 300 (countGraphemes (strippedText s))); [lia|done].
Qed.

(** When the loop returns, it returns the segments it has accepted so far,
    which end with a word-like segment and measure less than the budget,
    followed by the separator and the URL. *)
Lemma truncateLoop_Some maxGraphemeCount u segments snippet addToSnippet r :
  truncateLoop maxGraphemeCount u segments snippet addToSnippet = Some r ->
  ∃ pre post,
    segments = pre ++ post ∧
    let accepted :=
      match pre with
      | [] => snippet
      | _ => snippet ++ addToSnippet ++ concat (map fst pre)
      end in
    r = accepted ++ ELLIPSIS_SPACE ++ u ∧
    (pre ≠ [] ->
     (∃ w, last pre = Some (w, true)) ∧
     Z.of_nat (countGraphemes accepted) < maxGraphemeCount).
Proof.
  revert snippet addToSnippet.
  induction segments as [|[segment isWordLike] rest IH];
    intros snippet addToSnippet; cbn [truncateLoop]; [done|].
  destruct isWordLike.
  - destruct (Z.geb_spec
                (Z.of_nat (countGraphemes (snippet ++ addToSnippet ++ segment)))
                maxGraphemeCount) as [Hge|Hlt].
    + intros [= <-]. exists [], ((segment, true) :: rest). cbn zeta.
      split; [done|]. split; [done|]. intros Hne. exfalso. by apply Hne.
    + intros (pre & post & -> & Hr & Hpre)%IH.
      exists ((segment, true) :: pre), post. split; [done|].
      cbn [map concat fst]. destruct pre as [|p pre].
      * cbn [concat]. rewrite app_nil_r. split; [done|]. intros _.
        split; [by eexists|]. lia.
      * cbn zeta in Hr, Hpre. cbn [app] in Hr, Hpre.
        repeat rewrite <- app_assoc in Hr. repeat rewrite <- app_assoc in Hpre.
        repeat rewrite <- app_assoc. split; [done|]. intros _.
        destruct Hpre as [[w Hw] Hc]; [done|]. split; [|done].
        exists w. by rewrite last_cons, Hw.
  - intros (pre & post & -> & Hr & Hpre)%IH.
    destruct pre as [|p pre].
    + exists [], ((segment, false) :: post). cbn zeta.
      split; [done|]. split; [done|]. intros Hne. exfalso. by apply Hne.
    + exists ((segment, false) :: p :: pre), post. split; [done|].
      cbn zeta in Hr, Hpre. cbn [map concat] in Hr, Hpre |- *.
      repeat rewrite <- app_assoc in Hr. repeat rewrite <- app_assoc in Hpre.
      repeat rewrite <- app_assoc. split; [done|]. intros _.
      destruct Hpre as [[w Hw] Hc]; [done|]. split; [|done].
      exists w. by rewrite last_cons, Hw.
Qed.

(** X4.  What the truncation achieves for a status with a language when
    the loop does return: whole segments, the URL at the end, and at most 300
    graphemes provided the URL leaves room for the separator and the counter
    is subadditive on the pieces.  (For a status whose language is [null]
    the constructor of [Intl.Segmenter] throws before the loop is entered;
    [reformatText] has no such path, so the statement is about statuses with
    a language.) *)
Lemma truncated_text_fits s r :
  is_Some (language s) ->
  (300 < countGraphemes (strippedText s))%nat ->
  truncateLoop (300 - Z.of_nat (length (url s)) - 2) (url s)
    (wordSegments (language s) (strippedText s)) [] [] = Some r ->
  reformatText s = r ∧
  ends_with (url s) r = true ∧
  ∃ pre post,
    wordSegments (language s) (strippedText s) = pre ++ post ∧
    r = concat (map fst pre) ++ ELLIPSIS_SPACE ++ url s ∧
    (countGraphemes [] = 0%nat ->
     (length (url s) <= 298)%nat ->
     (countGraphemes r
      <= countGraphemes (concat (map fst pre)) + 2 + length (url s))%nat ->
     (countGraphemes r <= 300)%nat).
Proof.
  intros _ Hlong Hloop. split.
  { unfold reformatText.
    destruct (Nat.ltb_spec 300 (countGraphemes (strippedText s))); [|lia].
    by rewrite Hloop. }
  apply truncateLoop_Some in Hloop as (pre & post & Hseg & Hr & Hpre).
  assert (r = concat (map fst pre) ++ ELLIPSIS_SPACE ++ url s) as Hr'.
  { destruct pre; [done|]. by rewrite Hr. }
  split.
  { rewrite Hr', app_assoc. apply ends_with_app. }
  exists pre, post. repeat split; [done..|].
  intros H0 Hurl Hsub. destruct pre as [|p pre].
  - cbn [map concat] in Hsub. lia.
  - destruct Hpre as [_ Hc]; [done|].
    cbn zeta in Hc. cbn [app] in Hc. lia.
Qed.
(** C9.  A text of at most 300 graphemes is returned as it is after the
    line-break elements ("<br/>", or "<br" and "/>" around one white space
    character) have become a newline, the paragraph boundaries "</p><p>"
    two newlines, and the remaining tags have been stripped. *)
Theorem short_text_is_normalized_and_stripped s :
  (countGraphemes (stripHtml (injectNewlines (content s))) <= 300)%nat ->
  reformatText s = stripHtml (injectNewlines (content s))
  ∧ (∀ a b, injectNewlines (a ++ str "<br/>" ++ b)
            = injectNewlines a ++ [LF] ++ injectNewlines b)
  ∧ (∀ c a b, is_regex_space c = true ->
              injectNewlines (a ++ str "<br" ++ c :: str "/>" ++ b)
              = injectNewlines a ++ [LF] ++ injectNewlines b)
  ∧ (∀ a b, injectNewlines (a ++ str "</p><p>" ++ b)
            = injectNewlines a ++ [LF; LF] ++ injectNewlines b)
  ∧ (∀ t, 60%N ∉ t -> injectNewlines t = t).
Proof.
  intros Hle. split; [by apply reformatText_short|].
  split; [apply injectNewlines_br|].
  split; [apply injectNewlines_br_space|].
  split; [apply injectNewlines_paragraphs|].
  intros t [Hbr Hp]%no_angle_plain. by apply injectNewlines_plain.
Qed.

(** Short plain text is a fixed point of the reformatter. *)
Lemma reformatText_plain s t :
  content s = t ->
  occurs match_br t = false -> occurs (match_lit P_CLOSE_OPEN) t = false ->
  stripHtml t = t -> (countGraphemes t <= 300)%nat ->
  reformatText s = t.
Proof.
  intros Hs Hbr Hp Hfix Hle.
  assert (strippedText s = t) as Htext.
  { unfold strippedText. rewrite Hs. by rewrite injectNewlines_plain. }
  rewrite reformatText_short; [done|]. by rewrite Htext.
Qed.

End Reformatter.

(** ** Event filter and status stream *)

Section Stream.
Context `{Externals}.

Lemma hasNonImage_true attachments :
  hasNonImage attachments = true ↔
  ∃ a, a ∈ attachments ∧ ma_type a ≠ str "image".
Proof.
  unfold hasNonImage. rewrite existsb_exists. split.
  - intros (a & Hin & Ha). exists a. split; [by apply list_elem_of_In|].
    unfold jsstring_eqb in Ha. apply negb_true_iff in Ha.
    by apply bool_decide_eq_false in Ha.
  - intros (a & Hin & Ha). exists a. split; [by apply list_elem_of_In|].
    unfold jsstring_eqb. apply negb_true_iff.
    by apply bool_decide_eq_false.
Qed.

Lemma streamStep_Some e p :
  fst (streamStep e) = Some p ->
  payload e = PStatus p ∧ includeEvent e = true
  ∧ hasNonImage (mediaAttachments p) = false.
Proof.
  unfold streamStep. destruct (includeEvent e); [|done].
  destruct (payload e) as [q|]; [|done].
  destruct (hasNonImage (mediaAttachments q)) eqn:E; [done|].
  by intros [= <-].
Qed.

Lemma stream_yields events p :
  p ∈ getMastodonStatusStream events ↔
  ∃ e, e ∈ events ∧ fst (streamStep e) = Some p.
Proof. unfold getMastodonStatusStream. apply list_elem_of_omap. Qed.
(** C3, as the script has it.  A status with an attachment that is not
    an image is never yielded by the status stream: the stream drops it,
    and prints a line when it does so after [includeEvent] has admitted
    the event.  [includeEvent] itself does not look at the attachments: it
    gives the same answer whatever they are. *)
Theorem stream_drops_non_image_attachments p :
  (∃ a, a ∈ mediaAttachments p ∧ ma_type a ≠ str "image") ->
  (∀ e, payload e = PStatus p -> fst (streamStep e) = None)
  ∧ (∀ e, payload e = PStatus p -> includeEvent e = true ->
          snd (streamStep e) = [LogSkipping])
  ∧ (∀ events, p ∉ getMastodonStatusStream events)
  ∧ (∀ name attachments,
       includeEvent {| event := name; payload := PStatus p |}
       = includeEvent {| event := name;
                         payload := PStatus (withAttachments p attachments) |}).
Proof.
  intros Hp%hasNonImage_true.
  assert (∀ e, fst (streamStep e) ≠ Some p) as Hnever.
  { intros e (_ & _ & Hno)%streamStep_Some. congruence. }
  split; [|split; [|split]].
  - intros e He. unfold streamStep. rewrite He, Hp.
    by destruct (includeEvent e).
  - intros e He Hin. unfold streamStep. by rewrite Hin, He, Hp.
  - intros events (e & _ & He)%stream_yields. by eapply Hnever.
  - reflexivity.
Qed.
End Stream.

(** ** Media transloader *)

(** One step of a computation in [result]. *)
Ltac result_step := cbn [mbind result_bind negb orb andb].

Section Transloader.
Variable w : World.

Lemma transloadOne_fails u :
  downloadOrUploadFails w u = true ->
  ∃ cause,
    transloadOne w u
    = Throw (JsErrorCause (str "Transloading " ++ u ++ str " failed:") cause).
Proof.
  unfold downloadOrUploadFails, transloadOne.
  destruct (fetch w u) as [response|e]; result_step; [|by eexists].
  destruct (resp_ok response); result_step; [|by eexists].
  destruct (resp_blob response) as [blob|e]; result_step; [|by eexists].
  destruct (uploadBlob w blob) as [uploaded|e]; result_step; [|by eexists].
  destruct (up_success uploaded); result_step; [done|by eexists].
Qed.

Lemma transloadOne_succeeds u :
  downloadOrUploadFails w u = false -> ∃ b, transloadOne w u = Ok b.
Proof.
  unfold downloadOrUploadFails, transloadOne.
  destruct (fetch w u) as [response|e]; result_step; [|done].
  destruct (resp_ok response); result_step; [|done].
  destruct (resp_blob response) as [blob|e]; result_step; [|done].
  destruct (uploadBlob w blob) as [uploaded|e]; result_step; [|done].
  destruct (up_success uploaded); result_step; [by eexists|done].
Qed.

Lemma transloadOne_wraps u e :
  transloadOne w u = Throw e ->
  ∃ cause, e = JsErrorCause (str "Transloading " ++ u ++ str " failed:") cause.
Proof.
  unfold transloadOne.
  match goal with |- context [match ?a with _ => _ end] => destruct a end;
    [done|]. intros [= <-]. by eexists.
Qed.
End Transloader.

Section PromiseAll.
Context {A : Type}.
Implicit Types rs : list (result A).

Lemma earliestRejection_None time i rs :
  earliestRejection time i rs = None -> rs = map Ok (fulfilled rs).
Proof.
  revert i. induction rs as [|[a|e] rs IH]; intros i;
    cbn [earliestRejection fulfilled map]; [done| |].
  - intros E. f_equal. by eapply IH.
  - destruct (earliestRejection time (S i) rs) as [[t e']|]; [|done].
    by destruct (t <? time i)%nat.
Qed.

Lemma earliestRejection_Some time i rs t e :
  earliestRejection time i rs = Some (t, e) -> Throw e ∈ rs.
Proof.
  revert i t e. induction rs as [|[a|e0] rs IH]; intros i t e;
    cbn [earliestRejection]; [done| |].
  - intros E. right. by eapply IH.
  - destruct (earliestRejection time (S i) rs) as [[t' e']|] eqn:E.
    + destruct (t' <? time i)%nat; intros [= <- <-].
      * right. by eapply IH.
      * left.
    + intros [= <- <-]. left.
Qed.

Lemma earliestRejection_is_Some time i rs e :
  Throw e ∈ rs -> is_Some (earliestRejection time i rs).
Proof.
  intros Hin. destruct (earliestRejection time i rs) eqn:E; [done|].
  apply earliestRejection_None in E. rewrite E in Hin.
  apply list_elem_of_fmap in Hin as (? & ? & ?). done.
Qed.

(** [Promise.all] fulfils only with the values of all the promises. *)
Lemma promiseAll_Ok time rs l : promiseAll time rs = Ok l -> rs = map Ok l.
Proof.
  unfold promiseAll.
  destruct (earliestRejection time 0 rs) as [[t e]|] eqn:E; [done|].
  intros [= <-]. by eapply earliestRejection_None.
Qed.

(** It rejects as soon as one promise does, with the reason of one of the
    promises. *)
Lemma promiseAll_rejects time rs e :
  Throw e ∈ rs -> ∃ e', promiseAll time rs = Throw e' ∧ Throw e' ∈ rs.
Proof.
  intros [[t e'] E]%(earliestRejection_is_Some time 0).
  exists e'. unfold promiseAll. rewrite E. split; [done|].
  by eapply earliestRejection_Some.
Qed.
End PromiseAll.

(** C6.  A batch of transloads fulfils only with the blob references of all
    its items, in order; the failure of an item is an error that names the
    URL of the item; and when a download or an upload of some item fails, the
    batch fails with the error of a failing item, and so does the building of
    the image embed. *)
Theorem transload_is_all_or_nothing (w : World) (sources : list jsstring) :
  (∀ blobs, transloadMastodonMediaToBsky w sources = Ok blobs ->
            map (transloadOne w) sources = map Ok blobs
            ∧ length blobs = length sources)
  ∧ (∀ u e, transloadOne w u = Throw e ->
            ∃ cause,
              e = JsErrorCause (str "Transloading " ++ u ++ str " failed:") cause)
  ∧ ((∃ u, u ∈ sources ∧ downloadOrUploadFails w u = true) ->
     ∃ u cause,
       u ∈ sources ∧ downloadOrUploadFails w u = true
       ∧ transloadMastodonMediaToBsky w sources
         = Throw (JsErrorCause (str "Transloading " ++ u ++ str " failed:") cause)
       ∧ ∀ attachments, map ma_url attachments = sources ->
           mastodonMediaToBskyEmbeds w attachments
           = Throw (JsErrorCause (str "Transloading " ++ u ++ str " failed:") cause)).
Proof.
  split; [|split].
  - intros blobs Hok%promiseAll_Ok. split; [done|].
    apply (f_equal length) in Hok. by rewrite !length_map in Hok.
  - apply transloadOne_wraps.
  - intros (u & Hu & Hfail).
    destruct (transloadOne_fails w u Hfail) as [cause Hcause].
    assert (Throw (JsErrorCause (str "Transloading " ++ u ++ str " failed:") cause)
            ∈ map (transloadOne w) sources) as Hin.
    { rewrite <- Hcause. by apply list_elem_of_fmap_2. }
    apply (promiseAll_rejects (settle_time w)) in Hin as (e' & Hall & Hin').
    apply list_elem_of_fmap in Hin' as (u' & Hu' & Hsrc').
    symmetry in Hu'.
    destruct (transloadOne_wraps w u' e' Hu') as [cause' ->].
    exists u', cause'. split; [done|]. split.
    { destruct (downloadOrUploadFails w u') eqn:E; [done|].
      apply transloadOne_succeeds in E as [b Hb]. congruence. }
    split; [done|].
    intros attachments <-. unfold mastodonMediaToBskyEmbeds.
    unfold transloadMastodonMediaToBsky in Hall |- *. by rewrite Hall.
Qed.

(** ** Post assembler *)

Section Assembler.
Context `{Externals}.
Implicit Types (w : World) (ledger : gmap (list N) Entry).

(** A post that the assembler returns carries the reply reference that
    the ledger lookup resolved. *)
Lemma assembled_reply w ledger s p :
  mastodonStatusToBskyPost w ledger s = Ok p ->
  resolveReply w ledger s = Ok (reply p).
Proof.
  unfold mastodonStatusToBskyPost.
  destruct (detectFacets w (reformatText s)) as [fs|]; result_step; [|done].
  destruct (resolveReply w ledger s) as [r|]; result_step; [|done].
  destruct (resolveEmbed w s) as [em|]; result_step; [|done].
  match goal with |- context [v_success ?v] => destruct (v_success v) end;
    [|done].
  by intros [= <-].
Qed.

Lemma assembled_text w ledger s p :
  mastodonStatusToBskyPost w ledger s = Ok p -> text p = reformatText s.
Proof.
  unfold mastodonStatusToBskyPost.
  destruct (detectFacets w (reformatText s)) as [fs|]; result_step; [|done].
  destruct (resolveReply w ledger s) as [r|]; result_step; [|done].
  destruct (resolveEmbed w s) as [em|]; result_step; [|done].
  match goal with |- context [v_success ?v] => destruct (v_success v) end;
    [|done].
  by intros [= <-].
Qed.

(** An exception of the ledger lookup is an exception of the assembler,
    unless facet detection has failed before. *)
Lemma assembled_reply_throws w ledger s e :
  resolveReply w ledger s = Throw e ->
  is_ok (detectFacets w (reformatText s)) = true ->
  mastodonStatusToBskyPost w ledger s = Throw e.
Proof.
  intros Hr. unfold mastodonStatusToBskyPost.
  destruct (detectFacets w (reformatText s)) as [fs|]; [|done].
  result_step. by rewrite Hr.
Qed.

Lemma resolveReply_no_parent w ledger s :
  truthy (inReplyToId s) = false -> resolveReply w ledger s = Ok None.
Proof. unfold resolveReply. by destruct (inReplyToId s) as [[|c k]|]. Qed.

Lemma resolveReply_recorded w ledger s key ids :
  inReplyToId s = Some key -> key ≠ [] ->
  getItem_fault w key = None ->
  ledger !! key = Some {| bsky := Some ids |} ->
  resolveReply w ledger s
  = Ok (Some {| parent := ids_post ids;
                root := default (ids_post ids) (ids_root ids) |}).
Proof.
  intros Hs Hkey Hw Hl. unfold resolveReply, storage_getItem. rewrite Hs.
  destruct key as [|c k]; [done|]. by rewrite Hw, Hl.
Qed.

Lemma resolveReply_failed_parent w ledger s key :
  inReplyToId s = Some key ->
  getItem_fault w key = None ->
  ledger !! key = Some {| bsky := None |} ->
  resolveReply w ledger s = Ok None.
Proof.
  intros Hs Hw Hl. unfold resolveReply, storage_getItem. rewrite Hs.
  destruct key as [|c k]; [done|]. by rewrite Hw, Hl.
Qed.

Lemma resolveReply_absent_parent w ledger s key :
  inReplyToId s = Some key -> key ≠ [] ->
  getItem_fault w key = None ->
  ledger !! key = None ->
  resolveReply w ledger s
  = Throw (TypeError (str "Cannot read properties of undefined (reading 'bsky')")).
Proof.
  intros Hs Hkey Hw Hl. unfold resolveReply, storage_getItem. rewrite Hs.
  destruct key as [|c k]; [done|]. by rewrite Hw, Hl.
Qed.

(** A failed batch of transloads fails the assembly of a post with
    attachments. *)
Lemma assembled_embed_throws w ledger s e :
  mediaAttachments s ≠ [] ->
  mastodonMediaToBskyEmbeds w (mediaAttachments s) = Throw e ->
  ∀ p, mastodonStatusToBskyPost w ledger s ≠ Ok p.
Proof.
  intros Hne He p. unfold mastodonStatusToBskyPost.
  destruct (detectFacets w (reformatText s)) as [fs|]; result_step; [|done].
  destruct (resolveReply w ledger s) as [r|]; result_step; [|done].
  unfold resolveEmbed. destruct (mediaAttachments s) as [|a l]; [done|].
  cbn [length Nat.ltb Nat.leb]. by rewrite He.
Qed.
(** C4.  A reply assembled when the ledger holds a success entry for its
    parent carries the recorded identity of the parent as [reply.parent]
    and the root recorded with it as [reply.root]; for the entry of a root
    post, which records no root, both are the identity of the root
    post. *)
Theorem reply_to_recorded_root w ledger s key ids p :
  inReplyToId s = Some key -> key ≠ [] ->
  ledger !! key = Some {| bsky := Some ids |} ->
  mastodonStatusToBskyPost w ledger s = Ok p ->
  reply p = Some {| parent := ids_post ids;
                    root := default (ids_post ids) (ids_root ids) |}
  ∧ (ids_root ids = None ->
     reply p = Some {| parent := ids_post ids; root := ids_post ids |}).
Proof.
  intros Hs Hkey Hl Hp. pose proof (assembled_reply _ _ _ _ Hp) as Hr.
  assert (getItem_fault w key = None) as Hw.
  { unfold resolveReply, storage_getItem in Hr. rewrite Hs in Hr.
    destruct key as [|c k]; [done|].
    by destruct (getItem_fault w (c :: k)). }
  rewrite (resolveReply_recorded _ _ _ _ _ Hs Hkey Hw Hl) in Hr.
  injection Hr as Hr. split; [done|]. intros Hroot.
  by rewrite <- Hr, Hroot.
Qed.
End Assembler.

(** ** Ingestion loop *)

Section Loop.
Context `{Externals}.
Implicit Types (w : World) (s : State).

Lemma processItem_success w s st bskyPost posted :
  crossPost w s st = Ok (bskyPost, posted) ->
  setItem_fault w (id st) (successEntry bskyPost posted) = None ->
  processItem w s st
  = ({| ledger := <[id st := successEntry bskyPost posted]> (ledger s);
        published := published s ++ [(bskyPost, posted)];
        console := (console s ++ [LogStatus st])
                   ++ [LogPostedSaved st bskyPost posted];
        setItems := setItems s ++ [(id st, successEntry bskyPost posted)] |},
     None).
Proof.
  intros Hc Hw. unfold processItem.
  change (crossPost w (print [LogStatus st] s) st) with (crossPost w s st).
  rewrite Hc. unfold setItem, storage_setItem.
  cbn [publish ledger]. by rewrite Hw.
Qed.

Lemma processItem_storage_failure w s st bskyPost posted error :
  crossPost w s st = Ok (bskyPost, posted) ->
  setItem_fault w (id st) (successEntry bskyPost posted) = Some error ->
  processItem w s st
  = ({| ledger := ledger s;
        published := published s ++ [(bskyPost, posted)];
        console := (console s ++ [LogStatus st]) ++ [ErrStorageFailed error];
        setItems := setItems s |},
     None).
Proof.
  intros Hc Hw. unfold processItem.
  change (crossPost w (print [LogStatus st] s) st) with (crossPost w s st).
  rewrite Hc. unfold setItem, storage_setItem.
  cbn [publish ledger]. by rewrite Hw.
Qed.

Lemma processItem_failure w s st error :
  crossPost w s st = Throw error ->
  setItem_fault w (id st) failureEntry = None ->
  processItem w s st
  = ({| ledger := <[id st := failureEntry]> (ledger s);
        published := published s;
        console := (console s ++ [LogStatus st]) ++ [ErrCrossPosting error];
        setItems := setItems s ++ [(id st, failureEntry)] |},
     None).
Proof.
  intros Hc Hw. unfold processItem.
  change (crossPost w (print [LogStatus st] s) st) with (crossPost w s st).
  rewrite Hc. unfold setItem, storage_setItem.
  cbn [print ledger]. by rewrite Hw.
Qed.

Lemma processItem_double_failure w s st error error' :
  crossPost w s st = Throw error ->
  setItem_fault w (id st) failureEntry = Some error' ->
  processItem w s st = (print [LogStatus st] s, Some error').
Proof.
  intros Hc Hw. unfold processItem.
  change (crossPost w (print [LogStatus st] s) st) with (crossPost w s st).
  rewrite Hc. unfold setItem, storage_setItem.
  cbn [print ledger]. by rewrite Hw.
Qed.
(** What one pass through the loop body does to the ledger: at most one
    [setItem] completes, under the id of the status; no entry disappears;
    the entries of the other keys stay as they are. *)
Lemma processItem_writes w s st :
  (setItems (fst (processItem w s st)) = setItems s
   ∨ ∃ v, setItems (fst (processItem w s st)) = setItems s ++ [(id st, v)])
  ∧ (∀ k, is_Some (ledger s !! k) ->
          is_Some (ledger (fst (processItem w s st)) !! k))
  ∧ (∀ k, k ≠ id st ->
          ledger (fst (processItem w s st)) !! k = ledger s !! k).
Proof.
  destruct (crossPost w s st) as [[bskyPost posted]|error] eqn:Hc.
  - destruct (setItem_fault w (id st) (successEntry bskyPost posted))
      as [error|] eqn:Hw.
    + rewrite (processItem_storage_failure _ _ _ _ _ _ Hc Hw). cbn.
      split; [by left|]. done.
    + rewrite (processItem_success _ _ _ _ _ Hc Hw). cbn.
      split; [right; by eexists|]. split.
      * intros k Hk. rewrite lookup_insert. by case_decide.
      * intros k Hk. by rewrite lookup_insert_ne.
  - destruct (setItem_fault w (id st) failureEntry) as [error'|] eqn:Hw.
    + rewrite (processItem_double_failure _ _ _ _ _ Hc Hw). cbn.
      split; [by left|]. done.
    + rewrite (processItem_failure _ _ _ _ Hc Hw). cbn.
      split; [right; by eexists|]. split.
      * intros k Hk. rewrite lookup_insert. by case_decide.
      * intros k Hk. by rewrite lookup_insert_ne.
Qed.

(** An exception leaves the loop body only when the cross-post has failed
    and the failure entry cannot be stored. *)
Lemma processItem_halts w s st error' :
  snd (processItem w s st) = Some error' ->
  ∃ error, crossPost w s st = Throw error
           ∧ setItem_fault w (id st) failureEntry = Some error'.
Proof.
  destruct (crossPost w s st) as [[bskyPost posted]|error] eqn:Hc.
  - destruct (setItem_fault w (id st) (successEntry bskyPost posted))
      as [error|] eqn:Hw.
    + by rewrite (processItem_storage_failure _ _ _ _ _ _ Hc Hw).
    + by rewrite (processItem_success _ _ _ _ _ Hc Hw).
  - destruct (setItem_fault w (id st) failureEntry) as [error''|] eqn:Hw.
    + rewrite (processItem_double_failure _ _ _ _ _ Hc Hw).
      intros [= <-]. by exists error.
    + by rewrite (processItem_failure _ _ _ _ Hc Hw).
Qed.

(** A post that is not a reply is assembled without reply reference. *)
Lemma crossPost_root_no_reply w s st bskyPost posted :
  truthy (inReplyToId st) = false ->
  crossPost w s st = Ok (bskyPost, posted) ->
  reply bskyPost = None.
Proof.
  intros Hroot Hc. unfold crossPost in Hc.
  destruct (mastodonStatusToBskyPost w (ledger s) st) as [p|] eqn:Hp;
    [|done].
  revert Hc. result_step. destruct (post w p); [|done].
  result_step. intros [= <- _].
  apply assembled_reply in Hp.
  rewrite resolveReply_no_parent in Hp by done. congruence.
Qed.

(** C5, as the script has it.  When a post that is not a reply is
    cross-posted and its entry stored, the entry under its id holds the
    returned identity as the post identity and no root identity
    ([null]). *)
Theorem root_post_entry_has_null_root w s st bskyPost posted :
  truthy (inReplyToId st) = false ->
  crossPost w s st = Ok (bskyPost, posted) ->
  setItem_fault w (id st) (successEntry bskyPost posted) = None ->
  successEntry bskyPost posted
  = {| bsky := Some {| ids_post := posted; ids_root := None |} |}
  ∧ ledger (fst (processItem w s st)) !! id st
    = Some {| bsky := Some {| ids_post := posted; ids_root := None |} |}
  ∧ snd (processItem w s st) = None.
Proof.
  intros Hroot Hc Hw.
  assert (successEntry bskyPost posted
          = {| bsky := Some {| ids_post := posted; ids_root := None |} |})
    as Hentry.
  { unfold successEntry. by rewrite (crossPost_root_no_reply _ _ _ _ _ Hroot Hc). }
  rewrite (processItem_success _ _ _ _ _ Hc Hw). cbn [fst snd ledger].
  by rewrite lookup_insert_eq, Hentry.
Qed.

(** Thread continuity across two passes of the loop body: once a root post
    is cross-posted and recorded, a reply to it that is assembled against the
    resulting ledger refers to the identity of the root post as its parent
    and as its root. *)
Lemma thread_continuity w s st bskyPost posted w' reply_st p :
  truthy (inReplyToId st) = false ->
  crossPost w s st = Ok (bskyPost, posted) ->
  setItem_fault w (id st) (successEntry bskyPost posted) = None ->
  inReplyToId reply_st = Some (id st) -> id st ≠ [] ->
  mastodonStatusToBskyPost w' (ledger (fst (processItem w s st))) reply_st
  = Ok p ->
  reply p = Some {| parent := posted; root := posted |}.
Proof.
  intros Hroot Hc Hw Hre Hid Hp.
  rewrite (processItem_success _ _ _ _ _ Hc Hw) in Hp. cbn [fst ledger] in Hp.
  apply assembled_reply in Hp.
  assert (getItem_fault w' (id st) = None) as Hw'.
  { unfold resolveReply, storage_getItem in Hp. rewrite Hre in Hp.
    destruct (id st) as [|c k]; [done|].
    by destruct (getItem_fault w' (c :: k)). }
  assert (<[id st := successEntry bskyPost posted]> (ledger s) !! id st
          = Some {| bsky := Some {| ids_post := posted; ids_root := None |} |})
    as Hentry.
  { rewrite lookup_insert_eq. unfold successEntry.
    by rewrite (crossPost_root_no_reply _ _ _ _ _ Hroot Hc). }
  rewrite (resolveReply_recorded _ _ _ _ _ Hre Hid Hw' Hentry) in Hp.
  cbn in Hp. congruence.
Qed.

Lemma ingest_cons_None e w rest s :
  fst (streamStep e) = None ->
  ingest ((e, w) :: rest) s = ingest rest (print (snd (streamStep e)) s).
Proof. intros E. cbn [ingest]. by rewrite E. Qed.

Lemma ingest_cons_Some e w rest s st :
  fst (streamStep e) = Some st ->
  ingest ((e, w) :: rest) s
  = match processItem w (print (snd (streamStep e)) s) st with
    | (s', None) => ingest rest s'
    | (s', Some error) => (s', Some error)
    end.
Proof. intros E. cbn [ingest]. by rewrite E. Qed.

Lemma deliveredIds_cons e w rest :
  deliveredIds ((e, w) :: rest)
  = match fst (streamStep e) with
    | Some st => id st :: deliveredIds rest
    | None => deliveredIds rest
    end.
Proof.
  unfold deliveredIds, getMastodonStatusStream. cbn.
  by destruct (streamStep e).1.
Qed.

Lemma ingest_writes input s :
  (∀ k, is_Some (ledger s !! k) ->
        is_Some (ledger (fst (ingest input s)) !! k))
  ∧ (∀ k, k ∉ deliveredIds input ->
          ledger (fst (ingest input s)) !! k = ledger s !! k)
  ∧ (∃ new, setItems (fst (ingest input s)) = setItems s ++ new
            ∧ map fst new `sublist_of` deliveredIds input).
Proof.
  revert s. induction input as [|[e w] rest IH]; intros s.
  { cbn. split; [done|]. split; [done|]. exists []. by rewrite app_nil_r. }
  rewrite deliveredIds_cons.
  destruct (fst (streamStep e)) as [st|] eqn:E.
  - rewrite (ingest_cons_Some _ _ _ _ _ E).
    set (s1 := print (snd (streamStep e)) s).
    destruct (processItem_writes w s1 st) as (Hnew & Hkeep & Hother).
    assert (∃ new1, setItems (fst (processItem w s1 st)) = setItems s ++ new1
                    ∧ (new1 = [] ∨ ∃ v, new1 = [(id st, v)])) as
      (new1 & Hnew1 & Hshape).
    { destruct Hnew as [Hn|[v Hn]].
      - exists []. rewrite app_nil_r. split; [done|by left].
      - exists [(id st, v)]. split; [done|]. right. by eexists. }
    destruct (processItem w s1 st) as [s2 [error|]]; cbn [fst] in *.
    + split; [by apply Hkeep|]. split.
      * intros k Hk. apply not_elem_of_cons in Hk as [Hk _].
        by rewrite Hother.
      * exists new1. split; [done|].
        destruct Hshape as [->|[v ->]]; [apply sublist_nil_l|].
        cbn. apply sublist_skip, sublist_nil_l.
    + destruct (IH s2) as (IHkeep & IHother & new & IHnew & IHsub).
      split; [intros k Hk; by apply IHkeep, Hkeep|]. split.
      * intros k Hk. apply not_elem_of_cons in Hk as [Hk Hk'].
        rewrite IHother by done. by rewrite Hother.
      * exists (new1 ++ new). rewrite IHnew, Hnew1, app_assoc.
        split; [done|]. rewrite map_app.
        destruct Hshape as [->|[v ->]]; cbn.
        -- by apply sublist_cons.
        -- by apply sublist_skip.
  - rewrite (ingest_cons_None _ _ _ _ E).
    apply (IH (print (snd (streamStep e)) s)).
Qed.

(** C8, as the script has it.  Over a run of the loop no entry of the ledger
    is deleted, the entries of the ids that are not delivered stay as they
    are, and each delivery of a status completes at most one write, under
    the id of that status; when no id is delivered twice, no key is written
    twice. *)
Theorem ledger_written_once_per_delivery input s :
  (∀ k, is_Some (ledger s !! k) ->
        is_Some (ledger (fst (ingest input s)) !! k))
  ∧ (∀ k, k ∉ deliveredIds input ->
          ledger (fst (ingest input s)) !! k = ledger s !! k)
  ∧ (∃ new, setItems (fst (ingest input s)) = setItems s ++ new
            ∧ map fst new `sublist_of` deliveredIds input
            ∧ (NoDup (deliveredIds input) -> NoDup (map fst new))).
Proof.
  destruct (ingest_writes input s) as (Hkeep & Hother & new & Hnew & Hsub).
  split; [done|]. split; [done|]. exists new. split; [done|].
  split; [done|]. intros Hnodup. by eapply sublist_NoDup.
Qed.
End Loop.

(** * Further properties of the pipeline *)

(** ** Event filter and status stream *)

Section StreamMore.
Context `{Externals}.

Lemma includeEvent_true e :
  includeEvent e = true ↔
  ∃ p, e = updateOf p
       ∧ visibility p = str "public"
       ∧ muted p ≠ Some true
       ∧ account_id p = MASTODON_ACCOUNT_ID
       ∧ mentions p = []
       ∧ (∀ a, inReplyToAccountId p = Some a -> a = MASTODON_ACCOUNT_ID).
Proof.
  destruct e as [name [p|]]; unfold includeEvent, jsstring_eqb, updateOf;
    cbn [event payload].
  - split.
    + destruct (bool_decide_reflect (name = str "update")) as [->|]; [|done].
      cbn [negb].
      destruct (bool_decide_reflect (visibility p = str "public")); [|done].
      destruct (bool_decide_reflect (muted p = Some true)); [done|].
      destruct (bool_decide_reflect (account_id p = MASTODON_ACCOUNT_ID));
        [|done].
      destruct (mentions p) as [|m ms] eqn:Hm; [|done].
      cbn [negb orb length Nat.ltb Nat.leb].
      intros Hreply. exists p. rewrite Hm. repeat split; try done.
      intros a Ha. rewrite Ha in Hreply.
      by destruct (bool_decide_reflect (a = MASTODON_ACCOUNT_ID)).
    + intros (q & [= -> ->] & Hv & Hmu & Hacc & Hm & Hre).
      rewrite (bool_decide_eq_true_2 (str "update" = str "update") eq_refl).
      rewrite (bool_decide_eq_true_2 _ Hv), (bool_decide_eq_true_2 _ Hacc), Hm.
      rewrite (bool_decide_eq_false_2 _ Hmu).
      cbn [negb orb length Nat.ltb Nat.leb].
      destruct (inReplyToAccountId q) as [a|]; [|reflexivity].
      by rewrite (bool_decide_eq_true_2 _ (Hre a eq_refl)).
  - split; [|by intros (q & [=] & _)].
    by destruct (bool_decide (name = str "update")).
Qed.

Lemma hasNonImage_false attachments :
  hasNonImage attachments = false ↔
  ∀ a, a ∈ attachments -> ma_type a = str "image".
Proof.
  split.
  - intros Hno a Ha. destruct (decide (ma_type a = str "image")); [done|].
    assert (hasNonImage attachments = true) by (apply hasNonImage_true; eauto).
    congruence.
  - intros Hall. destruct (hasNonImage attachments) eqn:E; [|done].
    apply hasNonImage_true in E as (a & Ha & Hne). by apply Hall in Ha.
Qed.

(** X1.  The status stream yields a status exactly when an "update" event
    announces it and it is public, not muted, written by the tracked
    account, free of mentions, not a reply to somebody else, and all its
    attachments are images. *)
Theorem stream_yields_exactly_the_eligible events p :
  p ∈ getMastodonStatusStream events ↔ updateOf p ∈ events ∧ eligible p.
Proof.
  rewrite stream_yields. split.
  - intros (e & He & (Hpay & Hinc & Himg)%streamStep_Some).
    apply includeEvent_true in Hinc as (q & -> & Hq).
    injection Hpay as ->. split; [done|].
    pose proof (proj1 (hasNonImage_false _) Himg) as Himg'.
    destruct Hq as (Hv & Hmu & Hacc & Hm & Hre). by repeat split.
  - intros (He & Hv & Hmu & Hacc & Hm & Hre & Himg).
    exists (updateOf p). split; [done|]. unfold streamStep.
    rewrite (proj2 (includeEvent_true (updateOf p))) by (exists p; done).
    cbn [payload updateOf]. by rewrite (proj2 (hasNonImage_false _) Himg).
Qed.

(** X2.  The stream keeps the order of arrival and invents nothing: what it
    yields for a run of events is a sublist of the statuses announced, and a
    run in two parts yields the statuses of the first part and then those of
    the second. *)
Theorem stream_preserves_order events events' :
  getMastodonStatusStream events `sublist_of` announced events
  ∧ getMastodonStatusStream (events ++ events')
    = getMastodonStatusStream events ++ getMastodonStatusStream events'.
Proof.
  split; [|apply omap_app].
  unfold getMastodonStatusStream, announced.
  induction events as [|e events IH]; [done|]. cbn [omap list_omap].
  destruct (fst (streamStep e)) as [p|] eqn:E.
  - apply streamStep_Some in E as (-> & _). by apply sublist_skip.
  - destruct (payload e); [by apply sublist_cons|done].
Qed.
End StreamMore.

(** ** Text reformatter *)

(** Concatenations in [H] and in the goal, associated to the right. *)
Ltac app_right H :=
  repeat rewrite <- app_assoc in H; repeat rewrite <- app_assoc.

Section ReformatterMore.
Context `{Externals}.

(** The loop runs to its end exactly when no word-like segment brings the
    accepted text up to the budget. *)
Lemma truncateLoop_None maxGraphemeCount u segments snippet addToSnippet :
  truncateLoop maxGraphemeCount u segments snippet addToSnippet = None ↔
  ∀ pre w post,
    segments = pre ++ (w, true) :: post ->
    Z.of_nat (countGraphemes
                (snippet ++ addToSnippet ++ concat (map fst pre) ++ w))
    < maxGraphemeCount.
Proof.
  revert snippet addToSnippet.
  induction segments as [|[segment isWordLike] rest IH];
    intros snippet addToSnippet; cbn [truncateLoop].
  { split; [|done]. intros _ [|??] ?? [=]. }
  destruct isWordLike.
  - destruct (Z.geb_spec
                (Z.of_nat (countGraphemes (snippet ++ addToSnippet ++ segment)))
                maxGraphemeCount) as [Hge|Hlt].
    + split; [done|]. intros Hall.
      specialize (Hall [] segment rest eq_refl). cbn [map concat app] in Hall.
      lia.
    + rewrite IH. split.
      * intros Hall [|[x b] pre] w post.
        -- intros [= <- <-]. by cbn [map concat app].
        -- intros [= <- <- ->]. specialize (Hall pre w post eq_refl).
           cbn [map concat fst app] in Hall |- *.
           by app_right Hall.
      * intros Hall pre w post ->.
        specialize (Hall ((segment, true) :: pre) w post eq_refl).
        cbn [map concat fst app] in Hall |- *.
        by app_right Hall.
  - rewrite IH. split.
    + intros Hall [|[x b] pre] w post; [done|].
      intros [= <- <- ->]. specialize (Hall pre w post eq_refl).
      cbn [map concat fst]. by app_right Hall.
    + intros Hall pre w post ->.
      specialize (Hall ((segment, false) :: pre) w post eq_refl).
      cbn [map concat fst] in Hall. by app_right Hall.
Qed.

(** X3.  For a status with a language, a text of more than 300 graphemes
    is returned unchanged, with no URL, when no prefix of its segments that
    ends with a word-like segment measures as much as the budget
    [300 - url.length - 2]; this is exactly the case in which the loop over
    the segments runs to its end.  (With [language] null the constructor of
    [Intl.Segmenter] throws before the loop, hence the hypothesis.) *)
Theorem long_text_unchanged_when_no_word_reaches_budget s :
  (truncateLoop (300 - Z.of_nat (length (url s)) - 2) (url s)
     (wordSegments (language s) (strippedText s)) [] [] = None
   ↔ ∀ pre w post,
       wordSegments (language s) (strippedText s) = pre ++ (w, true) :: post ->
       Z.of_nat (countGraphemes (concat (map fst pre) ++ w))
       < 300 - Z.of_nat (length (url s)) - 2)
  ∧ (is_Some (language s) ->
     (300 < countGraphemes (strippedText s))%nat ->
     (∀ pre w post,
        wordSegments (language s) (strippedText s) = pre ++ (w, true) :: post ->
        Z.of_nat (countGraphemes (concat (map fst pre) ++ w))
        < 300 - Z.of_nat (length (url s)) - 2) ->
     reformatText s = strippedText s).
Proof.
  split; [apply truncateLoop_None|].
  intros _ Hlong Hbelow. unfold reformatText.
  rewrite (proj2 (truncateLoop_None _ _ _ [] []) Hbelow).
  by destruct (_ <? _)%nat.
Qed.

(** X5.  For a status with a language: when the first word-like segment,
    with what precedes it, already measures as much as the budget, nothing
    of a long text is kept: the result is the separator and the URL.  This
    is so for every long text with a word-like segment when the URL has 298
    code units or more.  (With [language] null the constructor of
    [Intl.Segmenter] throws before the loop, hence the hypothesis.) *)
Theorem long_text_with_early_stop_keeps_nothing s pre w post :
  is_Some (language s) ->
  (300 < countGraphemes (strippedText s))%nat ->
  wordSegments (language s) (strippedText s) = pre ++ (w, true) :: post ->
  Forall (fun segment => snd segment = false) pre ->
  (300 - Z.of_nat (length (url s)) - 2
   <= Z.of_nat (countGraphemes (concat (map fst pre) ++ w))
   ∨ (298 <= length (url s))%nat) ->
  reformatText s = ELLIPSIS_SPACE ++ url s.
Proof.
  intros _ Hlong Hseg Hpre Hstop.
  assert (∀ add,
            Z.geb (Z.of_nat (countGraphemes (add ++ concat (map fst pre) ++ w)))
                  (300 - Z.of_nat (length (url s)) - 2) = true ->
            truncateLoop (300 - Z.of_nat (length (url s)) - 2) (url s)
              (pre ++ (w, true) :: post) [] add
            = Some (ELLIPSIS_SPACE ++ url s)) as Hloop.
  { clear Hseg Hstop. induction Hpre as [|[x b] pre Hb Hpre IH]; intros add Hadd.
    - cbn [app truncateLoop map concat] in Hadd |- *. by rewrite Hadd.
    - cbn in Hb. subst b. cbn [app truncateLoop]. apply IH.
      cbn [map concat fst app] in Hadd |- *. by app_right Hadd. }
  unfold reformatText.
  destruct (Nat.ltb_spec 300 (countGraphemes (strippedText s))); [|lia].
  rewrite Hseg, (Hloop []); [done|]. cbn [app]. lia.
Qed.

(** X6.  For a status with a language, the truncated text begins with the
    beginning of the post: when the segments make up the text, what stands
    before the separator and the URL is a prefix of the stripped text, cut
    between two segments.  (With [language] null the constructor of
    [Intl.Segmenter] throws before the loop, hence the hypothesis.) *)
Theorem truncated_snippet_is_prefix s r :
  is_Some (language s) ->
  (300 < countGraphemes (strippedText s))%nat ->
  concat (map fst (wordSegments (language s) (strippedText s)))
  = strippedText s ->
  truncateLoop (300 - Z.of_nat (length (url s)) - 2) (url s)
    (wordSegments (language s) (strippedText s)) [] [] = Some r ->
  ∃ snippet rest,
    reformatText s = snippet ++ ELLIPSIS_SPACE ++ url s
    ∧ strippedText s = snippet ++ rest
    ∧ ∃ pre post,
        wordSegments (language s) (strippedText s) = pre ++ post
        ∧ snippet = concat (map fst pre) ∧ rest = concat (map fst post).
Proof.
  intros _ Hlong Hconcat Hloop.
  assert (reformatText s = r) as ->.
  { unfold reformatText.
    destruct (Nat.ltb_spec 300 (countGraphemes (strippedText s))); [|lia].
    by rewrite Hloop. }
  apply truncateLoop_Some in Hloop as (pre & post & Hseg & Hr & _).
  exists (concat (map fst pre)), (concat (map fst post)).
  split; [by destruct pre|]. split.
  - by rewrite <- Hconcat, Hseg, map_app, concat_app.
  - by exists pre, post.
Qed.
End ReformatterMore.

(** ** Newline injection *)

Lemma replaceAll_from_length m repl k s :
  (∀ t n, m t = Some n -> (length repl <= n <= length t)%nat) ->
  (length (replaceAll_from m repl k s) + Nat.min k (length s)
   <= length s)%nat.
Proof.
  intros Hm. revert k. induction s as [|c s IH]; intros k.
  { destruct k; cbn; lia. }
  cbn [replaceAll_from length]. destruct k as [|k].
  - destruct (m (c :: s)) as [n|] eqn:E.
    + apply Hm in E. cbn [length] in E. rewrite length_app.
      specialize (IH (Nat.pred n)). lia.
    + specialize (IH O). cbn [length]. lia.
  - specialize (IH k). lia.
Qed.

Lemma match_atoms_Lit_pos c p t n :
  match_atoms (Lit c :: p) t = Some n -> (1 <= n)%nat.
Proof.
  cbn [match_atoms]. destruct t as [|d t]; [done|].
  destruct (c =? d)%N; [|done].
  destruct (match_atoms p t); [|done]. intros [= <-]. lia.
Qed.

(** X7.  Injecting the newlines never makes the content longer: each line
    break of five or six code units becomes one, each paragraph boundary of
    seven becomes two, and everything else is kept. *)
Theorem injectNewlines_not_longer content :
  (length (injectNewlines content) <= length content)%nat.
Proof.
  unfold injectNewlines, replaceAll.
  pose proof (replaceAll_from_length (match_lit P_CLOSE_OPEN) [LF; LF] O
                (replaceAll_from match_br [LF] O content)) as Hp.
  pose proof (replaceAll_from_length match_br [LF] O content) as Hbr.
  assert (∀ t n, match_br t = Some n -> (length [LF] <= n <= length t)%nat)
    as Hbr_len.
  { intros t n E. split; [|by eapply match_atoms_bound].
    apply match_atoms_Lit_pos in E. cbn. lia. }
  assert (∀ t n, match_lit P_CLOSE_OPEN t = Some n ->
                 (length [LF; LF] <= n <= length t)%nat) as Hp_len.
  { intros t n E. split; [|by eapply match_atoms_bound].
    rewrite match_lit_spec in E. case_bool_decide; [|done].
    injection E as <-. cbn. lia. }
  specialize (Hp Hp_len). specialize (Hbr Hbr_len). lia.
Qed.

(** ** Media transloader and embeds *)

Section EmbedsMore.
Implicit Types (w : World) (sources : list jsstring).

Lemma promiseAll_Throw {A} time (rs : list (result A)) e :
  promiseAll time rs = Throw e -> Throw e ∈ rs.
Proof.
  unfold promiseAll.
  destruct (earliestRejection time 0 rs) as [[t e']|] eqn:E; [|done].
  intros [= <-]. by eapply earliestRejection_Some.
Qed.

Lemma map_Ok_inj {A} (l l' : list A) :
  map (@Ok A) l = map Ok l' -> l = l'.
Proof.
  revert l'. induction l as [|a l IH]; intros [|a' l']; try done.
  intros [= -> E]. f_equal. by apply IH.
Qed.

Lemma transloadOne_same w w' u :
  fetch w' = fetch w -> uploadBlob w' = uploadBlob w ->
  transloadOne w' u = transloadOne w u.
Proof. intros Hf Hu. unfold transloadOne. by rewrite Hf, Hu. Qed.

(** X8.  A batch of transloads fulfils exactly when no download and no
    upload of any of its items fails, and then its value is the same
    whatever the order in which the items settle. *)
Theorem transload_succeeds_iff w sources :
  ((∃ blobs, transloadMastodonMediaToBsky w sources = Ok blobs) ↔
   ∀ u, u ∈ sources -> downloadOrUploadFails w u = false)
  ∧ (∀ w' blobs,
       fetch w' = fetch w -> uploadBlob w' = uploadBlob w ->
       transloadMastodonMediaToBsky w sources = Ok blobs ->
       transloadMastodonMediaToBsky w' sources = Ok blobs).
Proof.
  unfold transloadMastodonMediaToBsky. split; [split|].
  - intros [blobs Hok%promiseAll_Ok] u Hu.
    destruct (downloadOrUploadFails w u) eqn:E; [|done].
    apply transloadOne_fails in E as [cause Hcause].
    assert (transloadOne w u ∈ map Ok blobs) as Hin
      by (rewrite <- Hok; by apply list_elem_of_fmap_2).
    rewrite Hcause in Hin. by apply list_elem_of_fmap in Hin as (? & ? & ?).
  - intros Hall.
    destruct (promiseAll (settle_time w) (map (transloadOne w) sources))
      as [blobs|e] eqn:E; [by eexists|].
    apply promiseAll_Throw, list_elem_of_fmap in E as (u & Hu & Hsrc).
    destruct (transloadOne_succeeds w u (Hall u Hsrc)) as [b Hb]. congruence.
  - intros w' blobs Hf Hu Hok%promiseAll_Ok.
    assert (map (transloadOne w') sources = map Ok blobs) as Hok'.
    { rewrite <- Hok. apply map_ext. intros u. by apply transloadOne_same. }
    destruct (promiseAll (settle_time w') (map (transloadOne w') sources))
      as [blobs'|e] eqn:E.
    + apply promiseAll_Ok in E. rewrite Hok' in E.
      f_equal. symmetry. by apply map_Ok_inj.
    + apply promiseAll_Throw in E. rewrite Hok' in E.
      by apply list_elem_of_fmap in E as (? & ? & ?).
Qed.

(** X9.  The image embed has one image for each attachment, in the order
    of the attachments; the i-th image carries the description of the i-th
    attachment as alt text, its original width and height, and the blob
    reference obtained from the URL of that attachment. *)
Theorem image_embed_is_aligned w attachments embed :
  mastodonMediaToBskyEmbeds w attachments = Ok embed ->
  ∃ images,
    embed = EmbedImages images
    ∧ length images = length attachments
    ∧ ∀ i a, attachments !! i = Some a ->
        ∃ b, transloadOne w (ma_url a) = Ok b
             ∧ images !! i = Some {| alt := ma_description a;
                                      image := Some b;
                                      aspectRatio := (ma_width a, ma_height a) |}.
Proof.
  unfold mastodonMediaToBskyEmbeds, transloadMastodonMediaToBsky.
  destruct (promiseAll _ _) as [blobs|e] eqn:E; result_step; [|done].
  apply promiseAll_Ok in E. intros [= <-]. eexists. split; [done|].
  split; [by rewrite length_imap|].
  intros i a Ha.
  assert (map (transloadOne w) (map ma_url attachments) !! i
          = Some (transloadOne w (ma_url a))) as Hi.
  { change (map (transloadOne w) (map ma_url attachments))
      with (transloadOne w <$> (ma_url <$> attachments)).
    by rewrite !list_lookup_fmap, Ha. }
  rewrite E in Hi.
  change (map Ok blobs) with (Ok <$> blobs) in Hi.
  rewrite list_lookup_fmap in Hi.
  destruct (blobs !! i) as [b|] eqn:Hb; [|done].
  injection Hi as Hi. exists b. split; [done|].
  by rewrite list_lookup_imap, Ha, Hb.
Qed.

(** X10.  The embed of a link-preview card always carries the URL, the
    title and the description of the card.  A card without image (null or
    empty) is embedded without any download; for a card with an image the
    outcome is that of the one transload: its failure, or the embed with the
    JSON form of the blob reference. *)
Theorem card_embed_follows_its_image w c :
  let external blob :=
    EmbedExternal {| ext_uri := card_url c; ext_title := card_title c;
                     ext_description := card_description c;
                     ext_blob := blob |} in
  (truthy (card_image c) = false ->
   mastodonCardToBskyEmbed w c = Ok (external None))
  ∧ (∀ u, card_image c = Some u -> u ≠ [] ->
       mastodonCardToBskyEmbed w c
       = match transloadOne w u with
         | Ok b => Ok (external (Some (original b)))
         | Throw e => Throw e
         end).
Proof.
  cbn zeta. unfold mastodonCardToBskyEmbed. split.
  - by destruct (card_image c) as [[|d u]|].
  - intros u -> Hu. destruct u as [|d u]; [done|].
    unfold transloadMastodonMediaToBsky, promiseAll.
    cbn [map earliestRejection fulfilled].
    by destruct (transloadOne w (d :: u)).
Qed.
End EmbedsMore.

(** ** Post assembler *)

Section AssemblerMore.
Context `{Externals}.
Implicit Types (w : World) (ledger : gmap (list N) Entry).

Lemma assembled_inv w ledger s p :
  mastodonStatusToBskyPost w ledger s = Ok p ->
  ∃ fs r em,
    detectFacets w (reformatText s) = Ok fs
    ∧ resolveReply w ledger s = Ok r
    ∧ resolveEmbed w s = Ok em
    ∧ p = {| text := reformatText s; facets := fs; langs := [language s];
             post_createdAt := createdAt s; reply := r; embed := em |}
    ∧ v_success (validateRecord p) = true.
Proof.
  unfold mastodonStatusToBskyPost.
  destruct (detectFacets w (reformatText s)) as [fs|]; result_step; [|done].
  destruct (resolveReply w ledger s) as [r|]; result_step; [|done].
  destruct (resolveEmbed w s) as [em|]; result_step; [|done].
  match goal with |- context [v_success ?v] => destruct (v_success v) eqn:Hv end;
    [|done].
  intros [= <-]. by exists fs, r, em.
Qed.

(** X11.  A post that the assembler returns has the reformatted text, the
    facets detected on that same text, the one language and the creation
    time of the status, and it passes the validation of the record: the
    assembler never returns a record that the validator refuses. *)
Theorem assembled_post_is_valid_and_faithful w ledger s p :
  mastodonStatusToBskyPost w ledger s = Ok p ->
  text p = reformatText s
  ∧ detectFacets w (text p) = Ok (facets p)
  ∧ langs p = [language s]
  ∧ post_createdAt p = createdAt s
  ∧ v_success (validateRecord p) = true.
Proof.
  intros (fs & r & em & Hfs & _ & _ & -> & Hv)%assembled_inv.
  by cbn [text facets langs post_createdAt].
Qed.

(** X12.  Attachments take priority over the card: a returned post of a
    status with attachments carries an image embed with one image for each
    attachment, whether the status has a card or not; without attachments it
    carries the external embed of the card; without either it carries no
    embed. *)
Theorem assembled_embed_priority w ledger s p :
  mastodonStatusToBskyPost w ledger s = Ok p ->
  match mediaAttachments s, card s with
  | _ :: _, _ =>
      ∃ images, embed p = Some (EmbedImages images)
                ∧ length images = length (mediaAttachments s)
  | [], Some c =>
      ∃ x, embed p = Some (EmbedExternal x)
           ∧ ext_uri x = card_url c ∧ ext_title x = card_title c
           ∧ ext_description x = card_description c
  | [], None => embed p = None
  end.
Proof.
  intros (fs & r & em & _ & _ & Hem & -> & _)%assembled_inv.
  cbn [embed]. unfold resolveEmbed in Hem.
  destruct (mediaAttachments s) as [|a l] eqn:Ha.
  - cbn [length Nat.ltb Nat.leb] in Hem. destruct (card s) as [c|].
    + unfold mastodonCardToBskyEmbed in Hem.
      destruct (card_image c) as [[|d u]|]; revert Hem; result_step;
        try (intros [= <-]; by eexists).
      destruct (transloadMastodonMediaToBsky w [d :: u]) as [[|b bs]|];
        result_step; try done.
      intros [= <-]. by eexists.
    + by injection Hem as <-.
  - cbn [length Nat.ltb Nat.leb] in Hem. revert Hem.
    unfold mastodonMediaToBskyEmbeds.
    destruct (transloadMastodonMediaToBsky w _) as [blobs|]; result_step;
      [|done].
    intros [= <-]. eexists. split; [done|]. cbn [length]. by rewrite length_imap.
Qed.

(** X13.  The assembler reads one entry of the ledger at most, the one of
    the parent: two ledgers that agree on it give the same outcome, and a
    status that is not a reply is assembled alike against every ledger. *)
Theorem assembler_reads_only_the_parent_entry w ledger ledger' s :
  (∀ key, inReplyToId s = Some key -> ledger !! key = ledger' !! key) ->
  mastodonStatusToBskyPost w ledger s = mastodonStatusToBskyPost w ledger' s.
Proof.
  intros Hagree.
  assert (resolveReply w ledger s = resolveReply w ledger' s) as Hr.
  { unfold resolveReply, storage_getItem.
    destruct (inReplyToId s) as [[|c k]|]; try done.
    by rewrite (Hagree (c :: k) eq_refl). }
  unfold mastodonStatusToBskyPost. by rewrite Hr.
Qed.
End AssemblerMore.

(** ** Ingestion loop *)

Section LoopMore.
Context `{Externals}.
Implicit Types (w : World) (s : State).

Lemma crossPost_Ok w s st bskyPost posted :
  crossPost w s st = Ok (bskyPost, posted) ->
  mastodonStatusToBskyPost w (ledger s) st = Ok bskyPost
  ∧ post w bskyPost = Ok posted.
Proof.
  unfold crossPost.
  destruct (mastodonStatusToBskyPost w (ledger s) st) as [p|]; result_step;
    [|done].
  destruct (post w p) as [r|] eqn:Hp; result_step; [|done].
  by intros [= <- <-].
Qed.

(** X14.  The root of a thread is handed down the thread: when a reply to a
    post with a success entry is cross-posted and recorded, its reply
    reference names the parent and the root of the parent's thread, and its
    own entry records that same root, so that replies to it resolve to the
    root of the thread again. *)
Theorem reply_entry_inherits_root w s st key ids bskyPost posted :
  inReplyToId st = Some key -> key ≠ [] ->
  ledger s !! key = Some {| bsky := Some ids |} ->
  crossPost w s st = Ok (bskyPost, posted) ->
  setItem_fault w (id st) (successEntry bskyPost posted) = None ->
  reply bskyPost = Some {| parent := ids_post ids; root := rootOf ids |}
  ∧ ledger (fst (processItem w s st)) !! id st
    = Some {| bsky := Some {| ids_post := posted;
                              ids_root := Some (rootOf ids) |} |}
  ∧ rootOf {| ids_post := posted; ids_root := Some (rootOf ids) |}
    = rootOf ids.
Proof.
  intros Hre Hkey Hentry Hc Hw.
  destruct (crossPost_Ok _ _ _ _ _ Hc) as [Hp _].
  apply assembled_reply in Hp.
  assert (getItem_fault w key = None) as Hg.
  { unfold resolveReply, storage_getItem in Hp. rewrite Hre in Hp.
    destruct key as [|c k]; [done|]. by destruct (getItem_fault w (c :: k)). }
  rewrite (resolveReply_recorded _ _ _ _ _ Hre Hkey Hg Hentry) in Hp.
  injection Hp as Hp. fold (rootOf ids) in Hp.
  split; [done|]. split; [|done].
  rewrite (processItem_success _ _ _ _ _ Hc Hw). cbn [fst ledger].
  rewrite lookup_insert_eq. unfold successEntry. by rewrite <- Hp.
Qed.

(** What one pass through the loop body adds to the state. *)
Lemma processItem_trace w s st :
  ∃ newP newW newC,
    published (fst (processItem w s st)) = published s ++ newP
    ∧ setItems (fst (processItem w s st)) = setItems s ++ newW
    ∧ console (fst (processItem w s st)) = console s ++ newC
    ∧ ledger (fst (processItem w s st)) = replay (ledger s) newW
    ∧ (∀ k ids, (k, {| bsky := Some ids |}) ∈ newW ->
         ∃ p, (p, ids_post ids) ∈ newP ∧ ids_root ids = root <$> reply p)
    ∧ (∀ p posted, (p, posted) ∈ newP ->
         (id st, successEntry p posted) ∈ newW
         ∨ ∃ error, ErrStorageFailed error ∈ newC).
Proof.
  destruct (crossPost w s st) as [[bskyPost posted]|error] eqn:Hc.
  - destruct (setItem_fault w (id st) (successEntry bskyPost posted))
      as [error|] eqn:Hw.
    + rewrite (processItem_storage_failure _ _ _ _ _ _ Hc Hw).
      exists [(bskyPost, posted)], [], [LogStatus st; ErrStorageFailed error].
      cbn [fst published setItems console ledger replay foldl].
      rewrite app_nil_r, <- app_assoc. repeat split; try done.
      * by intros k ids ?%elem_of_nil.
      * intros p r _. right. exists error. by right; left.
    + rewrite (processItem_success _ _ _ _ _ Hc Hw).
      exists [(bskyPost, posted)], [(id st, successEntry bskyPost posted)],
        [LogStatus st; LogPostedSaved st bskyPost posted].
      cbn [fst snd published setItems console ledger replay foldl].
      rewrite <- app_assoc. repeat split; try done.
      * intros k ids [= -> ->]%list_elem_of_singleton.
        exists bskyPost. split; [left|done].
      * intros p r [= -> ->]%list_elem_of_singleton. left. left.
  - destruct (setItem_fault w (id st) failureEntry) as [error'|] eqn:Hw.
    + rewrite (processItem_double_failure _ _ _ _ _ Hc Hw).
      exists [], [], [LogStatus st].
      cbn [fst print published setItems console ledger replay foldl].
      rewrite !app_nil_r. repeat split; try done.
      * by intros k ids ?%elem_of_nil.
      * by intros p r ?%elem_of_nil.
    + rewrite (processItem_failure _ _ _ _ Hc Hw).
      exists [], [(id st, failureEntry)], [LogStatus st; ErrCrossPosting error].
      cbn [fst snd published setItems console ledger replay foldl].
      rewrite app_nil_r, <- app_assoc. repeat split; try done.
      * by intros k ids [= _ ?]%list_elem_of_singleton.
      * by intros p r ?%elem_of_nil.
Qed.

(** What a run of the loop adds to the state. *)
Lemma ingest_trace input s :
  ∃ newP newW newC,
    published (fst (ingest input s)) = published s ++ newP
    ∧ setItems (fst (ingest input s)) = setItems s ++ newW
    ∧ console (fst (ingest input s)) = console s ++ newC
    ∧ ledger (fst (ingest input s)) = replay (ledger s) newW
    ∧ (∀ k ids, (k, {| bsky := Some ids |}) ∈ newW ->
         ∃ p, (p, ids_post ids) ∈ newP ∧ ids_root ids = root <$> reply p)
    ∧ (∀ p posted, (p, posted) ∈ newP ->
         (∃ k, (k, successEntry p posted) ∈ newW)
         ∨ ∃ error, ErrStorageFailed error ∈ newC).
Proof.
  revert s. induction input as [|[e w] rest IH]; intros s.
  { exists [], [], []. cbn. rewrite !app_nil_r. repeat split; try done.
    - by intros k ids ?%elem_of_nil.
    - by intros p r ?%elem_of_nil. }
  set (s1 := print (snd (streamStep e)) s).
  assert (∀ s2 newP newW newC,
            published s2 = published s1 ++ newP ->
            setItems s2 = setItems s1 ++ newW ->
            console s2 = console s1 ++ newC ->
            published s2 = published s ++ newP
            ∧ setItems s2 = setItems s ++ newW
            ∧ console s2 = console s ++ (snd (streamStep e) ++ newC)) as Hs1.
  { intros s2 newP newW newC -> -> ->. cbn. by rewrite <- app_assoc. }
  destruct (fst (streamStep e)) as [st|] eqn:E.
  - rewrite (ingest_cons_Some _ _ _ _ _ E). fold s1.
    destruct (processItem_trace w s1 st)
      as (P1 & W1 & C1 & HP1 & HW1 & HC1 & HL1 & Hsucc1 & Hpub1).
    destruct (processItem w s1 st) as [s2 [error|]]; cbn [fst] in *.
    + destruct (Hs1 _ _ _ _ HP1 HW1 HC1) as (HP & HW & HC).
      exists P1, W1, (snd (streamStep e) ++ C1).
      repeat split; try done.
      intros p r Hin. destruct (Hpub1 p r Hin) as [Hw|[error' Hc]].
      * left. by eexists.
      * right. exists error'. apply elem_of_app. by right.
    + destruct (IH s2)
        as (P2 & W2 & C2 & HP2 & HW2 & HC2 & HL2 & Hsucc2 & Hpub2).
      exists (P1 ++ P2), (W1 ++ W2), (snd (streamStep e) ++ C1 ++ C2).
      rewrite HP2, HW2, HC2, HL2, HL1.
      destruct (Hs1 _ _ _ _ HP1 HW1 HC1) as (-> & -> & ->).
      rewrite <- !app_assoc. unfold replay. rewrite foldl_app.
      repeat split; try done.
      * intros k ids [Hin|Hin]%elem_of_app.
        -- destruct (Hsucc1 k ids Hin) as (p & Hp & Hr).
           exists p. split; [|done]. apply elem_of_app. by left.
        -- destruct (Hsucc2 k ids Hin) as (p & Hp & Hr).
           exists p. split; [|done]. apply elem_of_app. by right.
      * intros p r [Hin|Hin]%elem_of_app.
        -- destruct (Hpub1 p r Hin) as [Hw|[error' Hc]].
           ++ left. exists (id st). apply elem_of_app. by left.
           ++ right. exists error'. rewrite !elem_of_app. by right; left.
        -- destruct (Hpub2 p r Hin) as [[k Hw]|[error' Hc]].
           ++ left. exists k. apply elem_of_app. by right.
           ++ right. exists error'. rewrite !elem_of_app. by right; right.
  - rewrite (ingest_cons_None _ _ _ _ E). fold s1.
    destruct (IH s1)
      as (P2 & W2 & C2 & HP2 & HW2 & HC2 & HL2 & Hsucc2 & Hpub2).
    exists P2, W2, (snd (streamStep e) ++ C2).
    destruct (Hs1 _ _ _ _ HP2 HW2 HC2) as (HP & HW & HC).
    repeat split; try done.
    intros p r Hin. destruct (Hpub2 p r Hin) as [Hw|[error' Hc]].
    + by left.
    + right. exists error'. apply elem_of_app. by right.
Qed.

(** X15.  A run of the loop only adds: what was published stays published
    and in place, what was printed stays printed, and the history of the
    completed writes is only extended. *)
Theorem ingest_only_appends input s :
  published s `prefix_of` published (fst (ingest input s))
  ∧ console s `prefix_of` console (fst (ingest input s))
  ∧ setItems s `prefix_of` setItems (fst (ingest input s)).
Proof.
  destruct (ingest_trace input s)
    as (newP & newW & newC & HP & HW & HC & _).
  rewrite HP, HW, HC. repeat split; by apply prefix_app_r.
Qed.

(** X16.  The ledger after a run is the ledger before it with the writes
    that completed during the run applied in order: for each key the last
    completed write decides. *)
Theorem ledger_is_replay_of_writes input s :
  ∃ new,
    setItems (fst (ingest input s)) = setItems s ++ new
    ∧ ledger (fst (ingest input s)) = replay (ledger s) new
    ∧ ∀ k v rest, new = rest ++ [(k, v)] ->
        ledger (fst (ingest input s)) !! k = Some v.
Proof.
  destruct (ingest_trace input s)
    as (newP & newW & newC & _ & HW & _ & HL & _).
  exists newW. split; [done|]. split; [done|].
  intros k v rest ->. rewrite HL. unfold replay. rewrite foldl_app.
  cbn [foldl fst snd]. apply lookup_insert_eq.
Qed.


(** X18.  The loop never ends early as long as the failure entries can be
    stored: an exception leaves the loop only when a cross-post fails and
    the write of its failure entry fails too. *)
Theorem ingest_runs_to_the_end_when_failures_are_stored input s :
  (∀ e w, (e, w) ∈ input -> ∀ k, setItem_fault w k failureEntry = None) ->
  snd (ingest input s) = None.
Proof.
  revert s. induction input as [|[e w] rest IH]; intros s Hstore; [done|].
  assert (∀ s', snd (ingest rest s') = None) as Hrest.
  { intros s'. apply IH. intros e' w' Hin. apply (Hstore e' w'). by right. }
  destruct (fst (streamStep e)) as [st|] eqn:E.
  - rewrite (ingest_cons_Some _ _ _ _ _ E).
    destruct (processItem w (print (snd (streamStep e)) s) st)
      as [s2 [error|]] eqn:Hstep; [|apply Hrest].
    assert (snd (processItem w (print (snd (streamStep e)) s) st)
            = Some error) as Hhalt by (by rewrite Hstep).
    apply processItem_halts in Hhalt as (? & _ & Hfault).
    rewrite (Hstore e w) in Hfault; [done|left].
  - rewrite (ingest_cons_None _ _ _ _ E). apply Hrest.
Qed.

(** X19.  When every write to the storage succeeds, a run of the loop
    leaves an entry in the ledger for the id of every status it was
    delivered, cross-posted or not. *)
Theorem every_delivered_status_is_recorded input s :
  (∀ e w, (e, w) ∈ input -> ∀ k v, setItem_fault w k v = None) ->
  snd (ingest input s) = None
  ∧ ∀ k, k ∈ deliveredIds input -> is_Some (ledger (fst (ingest input s)) !! k).
Proof.
  revert s. induction input as [|[e w] rest IH]; intros s Hstore.
  { split; [done|]. by intros k ?%elem_of_nil. }
  assert (∀ e' w', (e', w') ∈ rest -> ∀ k v, setItem_fault w' k v = None)
    as Hrest by (intros e' w' Hin; apply (Hstore e' w'); by right).
  rewrite deliveredIds_cons.
  destruct (fst (streamStep e)) as [st|] eqn:E.
  - rewrite (ingest_cons_Some _ _ _ _ _ E).
    set (s1 := print (snd (streamStep e)) s).
    assert (snd (processItem w s1 st) = None
            ∧ is_Some (ledger (fst (processItem w s1 st)) !! id st))
      as [Hgo Hid].
    { destruct (crossPost w s1 st) as [[bskyPost posted]|error] eqn:Hc.
      - rewrite (processItem_success _ _ _ _ _ Hc) by (apply (Hstore e w); left).
        cbn [fst snd ledger]. by rewrite lookup_insert_eq.
      - rewrite (processItem_failure _ _ _ _ Hc) by (apply (Hstore e w); left).
        cbn [fst snd ledger]. by rewrite lookup_insert_eq. }
    destruct (processItem w s1 st) as [s2 [error|]]; cbn [fst snd] in *;
      [done|].
    destruct (IH s2 Hrest) as [IHgo IHids]. split; [done|].
    intros k [->|Hk]%elem_of_cons; [|by apply IHids].
    by apply (proj1 (ingest_writes rest s2)).
  - rewrite (ingest_cons_None _ _ _ _ E). by apply IH.
Qed.

(** X20.  A run over two batches of events is the run over the first
    followed, unless an exception has ended it, by the run over the second
    from the state that the first has left. *)
Theorem ingest_app input input' s :
  ingest (input ++ input') s
  = match ingest input s with
    | (s', None) => ingest input' s'
    | (s', Some error) => (s', Some error)
    end.
Proof.
  revert s. induction input as [|[e w] rest IH]; intros s; [done|].
  cbn [app]. destruct (fst (streamStep e)) as [st|] eqn:E.
  - rewrite !(ingest_cons_Some _ _ _ _ _ E).
    by destruct (processItem w (print (snd (streamStep e)) s) st)
      as [s2 [error|]].
  - by rewrite !(ingest_cons_None _ _ _ _ E).
Qed.

(** X21.  Events that the stream drops change neither the ledger nor what
    is published: a run made of such events only prints the lines of the
    dropped attachments, and it is no run at all when the filter has refused
    every event. *)
Theorem dropped_events_change_nothing input s :
  (∀ e w, (e, w) ∈ input -> fst (streamStep e) = None) ->
  ingest input s
  = ({| ledger := ledger s; published := published s;
        console := console s
                   ++ concat (map (fun ew => snd (streamStep (fst ew))) input);
        setItems := setItems s |}, None)
  ∧ ((∀ e w, (e, w) ∈ input -> includeEvent e = false) ->
     ingest input s = (s, None)).
Proof.
  intros Hdrop.
  assert (ingest input s
          = ({| ledger := ledger s; published := published s;
                console := console s
                           ++ concat (map (fun ew => snd (streamStep (fst ew)))
                                          input);
                setItems := setItems s |}, None)) as Hrun.
  { revert s. induction input as [|[e w] rest IH]; intros s.
    - cbn. rewrite app_nil_r. by destruct s.
    - rewrite (ingest_cons_None _ _ _ _ (Hdrop e w ltac:(left))).
      rewrite IH by (intros e' w' Hin; apply (Hdrop e' w'); by right).
      cbn. by rewrite <- app_assoc. }
  split; [done|]. intros Hrefused. rewrite Hrun.
  assert (concat (map (fun ew => snd (streamStep (fst ew))) input) = []) as ->.
  { clear Hrun Hdrop. induction input as [|[e w] rest IH]; [done|].
    cbn [map concat fst]. rewrite IH
      by (intros e' w' Hin; apply (Hrefused e' w'); by right).
    unfold streamStep. by rewrite (Hrefused e w ltac:(left)). }
  rewrite app_nil_r. by destruct s.
Qed.

Lemma streamStep_Some_silent e st :
  fst (streamStep e) = Some st -> snd (streamStep e) = [].
Proof.
  unfold streamStep. destruct (includeEvent e); [|done].
  destruct (payload e) as [p|]; [|done].
  by destruct (hasNonImage (mediaAttachments p)).
Qed.

(** X22.  A failure of the assembly or of the submission is confined to
    its status: when the failure entry can be stored, the loop records the
    status as failed, prints the error, publishes nothing and goes on with
    the next event. *)
Theorem failed_cross_post_is_recorded_and_skipped e w rest s st error :
  fst (streamStep e) = Some st ->
  crossPost w s st = Throw error ->
  setItem_fault w (id st) failureEntry = None ->
  ingest ((e, w) :: rest) s
  = ingest rest
      {| ledger := <[id st := failureEntry]> (ledger s);
         published := published s;
         console := console s ++ [LogStatus st; ErrCrossPosting error];
         setItems := setItems s ++ [(id st, failureEntry)] |}.
Proof.
  intros E Hc Hw. rewrite (ingest_cons_Some _ _ _ _ _ E).
  rewrite (streamStep_Some_silent _ _ E).
  rewrite (processItem_failure w (print [] s) st error Hc Hw).
  cbn [print ledger published console setItems].
  by rewrite app_nil_r, <- app_assoc.
Qed.

(** X23.  When the entry of a post that was just published cannot be
    stored, the post stays published, the storage error is printed, the
    ledger is left as it was and the loop goes on with the next event. *)
Theorem storage_failure_keeps_the_post_published
    e w rest s st bskyPost posted error :
  fst (streamStep e) = Some st ->
  crossPost w s st = Ok (bskyPost, posted) ->
  setItem_fault w (id st) (successEntry bskyPost posted) = Some error ->
  ingest ((e, w) :: rest) s
  = ingest rest
      {| ledger := ledger s;
         published := published s ++ [(bskyPost, posted)];
         console := console s ++ [LogStatus st; ErrStorageFailed error];
         setItems := setItems s |}.
Proof.
  intros E Hc Hw. rewrite (ingest_cons_Some _ _ _ _ _ E).
  rewrite (streamStep_Some_silent _ _ E).
  rewrite (processItem_storage_failure w (print [] s) st _ _ _ Hc Hw).
  cbn [print ledger published console setItems].
  by rewrite app_nil_r, <- app_assoc.
Qed.

(** X24.  A reply to a post that is recorded as failed starts a thread of
    its own: it is assembled without reply reference, and its entry records
    no root, so that replies to it take it as their root. *)
Theorem reply_to_failed_parent_starts_a_thread w s st key bskyPost posted :
  inReplyToId st = Some key ->
  ledger s !! key = Some failureEntry ->
  crossPost w s st = Ok (bskyPost, posted) ->
  setItem_fault w (id st) (successEntry bskyPost posted) = None ->
  reply bskyPost = None
  ∧ ledger (fst (processItem w s st)) !! id st
    = Some {| bsky := Some {| ids_post := posted; ids_root := None |} |}.
Proof.
  intros Hre Hentry Hc Hw.
  destruct (crossPost_Ok _ _ _ _ _ Hc) as [Hp _].
  apply assembled_reply in Hp.
  assert (reply bskyPost = None) as Hreply.
  { unfold resolveReply, storage_getItem in Hp. rewrite Hre in Hp.
    destruct key as [|c k]; [by injection Hp|].
    destruct (getItem_fault w (c :: k)); [done|].
    revert Hp. result_step. rewrite Hentry. cbn. by intros [= <-]. }
  split; [done|].
  rewrite (processItem_success _ _ _ _ _ Hc Hw). cbn [fst ledger].
  rewrite lookup_insert_eq. unfold successEntry. by rewrite Hreply.
Qed.
End LoopMore.

Section Outcomes.
Context `{Externals}.
Implicit Types (w : World) (s : State).




End Outcomes.

(** ** The ASCII tag stripper *)

Lemma stripTags_no_angle inTag s : 60%N ∉ stripTags inTag s.
Proof.
  revert inTag. induction s as [|c s IH]; intros inTag; cbn [stripTags].
  - apply not_elem_of_nil.
  - destruct inTag; [apply IH|].
    destruct (N.eqb_spec c 60) as [->|Hne]; [apply IH|].
    apply not_elem_of_cons. split; [congruence|apply IH].
Qed.

Lemma stripTags_plain s : 60%N ∉ s -> stripTags false s = s.
Proof.
  induction s as [|c s IH]; [done|].
  intros [Hne Hs]%not_elem_of_cons. cbn [stripTags].
  destruct (N.eqb_spec c 60) as [->|_]; [done|]. by rewrite IH.
Qed.

(** With this stripper every result of at most 300 characters is plain, and
    the reformatter is idempotent on it. *)
Lemma ascii_reformatText_idempotent s s' :
  (length (@strippedText asciiExternals s) <= 300)%nat ->
  content s' = @reformatText asciiExternals s ->
  @reformatText asciiExternals s' = @reformatText asciiExternals s.
Proof.
  intros Hle Hs'.
  pose proof (@reformatText_short asciiExternals s Hle) as Hshort.
  assert (60%N ∉ @reformatText asciiExternals s) as Hplain.
  { rewrite Hshort. apply stripTags_no_angle. }
  destruct (no_angle_plain _ Hplain) as [Hbr Hp].
  apply (@reformatText_plain asciiExternals); try done.
  - by apply stripTags_plain.
  - by rewrite Hshort.
Qed.

(** * The pipeline on concrete posts *)

#[local] Existing Instance asciiExternals.

(** The end-to-end scenario of a short post. *)
Example hello_world_end_to_end :
  afterHello
  = {| ledger := {[ str "1" := {| bsky := Some {| ids_post := refOf HELLO_WORLD;
                                                  ids_root := None |} |} ]};
       published := [({| text := HELLO_WORLD; facets := None; langs := [EN];
                         post_createdAt := createdAt helloWorld;
                         reply := None; embed := None |},
                      refOf HELLO_WORLD)];
       console := [LogStatus helloWorld;
                   LogPostedSaved helloWorld
                     {| text := HELLO_WORLD; facets := None; langs := [EN];
                        post_createdAt := createdAt helloWorld;
                        reply := None; embed := None |}
                     (refOf HELLO_WORLD)];
       setItems := [(str "1", {| bsky := Some {| ids_post := refOf HELLO_WORLD;
                                                 ids_root := None |} |})] |}.
Proof. vm_compute. reflexivity. Qed.

(** The end-to-end scenario of a long post: 46 whole words, the separator
    and the URL, 294 graphemes in all. *)
Example lorem_is_truncated :
  (300 < countGraphemes (strippedText loremPost))%nat
  ∧ reformatText loremPost
    = str "lorem" ++ concat (repeat (str " lorem") 45)
      ++ ELLIPSIS_SPACE ++ str "https://example/6"
  ∧ countGraphemes (reformatText loremPost) = 294%nat.
Proof.
  split; [vm_compute; lia|]. split; vm_compute; reflexivity.
Qed.

(** C1 fails on the script.  The text "wow" followed by 300 exclamation
    marks measures 303 graphemes; its only word-like segment stays below the
    budget, the loop runs to its end, and the text is returned as it is:
    longer than 300 graphemes and without the URL. *)
Lemma long_text_with_punctuation_tail_is_not_truncated :
  (300 < countGraphemes (strippedText wowPost))%nat
  ∧ wordSegments (language wowPost) (strippedText wowPost)
    = (str "wow", true) :: map (fun c => ([c], false)) (repeat 33%N 300)
  ∧ reformatText wowPost = str "wow" ++ repeat 33%N 300
  ∧ countGraphemes (reformatText wowPost) = 303%nat
  ∧ ends_with (url wowPost) (reformatText wowPost) = false.
Proof.
  split; [vm_compute; lia|]. split; [vm_compute; reflexivity|].
  split; [vm_compute; reflexivity|]. split; vm_compute; reflexivity.
Qed.

(** C2 fails on the script.  The reply [replyPost] names the parent "1", for
    which the ledger has no entry: [storage.getItem] yields [undefined] and
    reading its [bsky] property throws, so the assembler returns no post; the
    loop records the reply as failed and publishes nothing. *)
Lemma reply_to_unrecorded_parent_throws :
  inReplyToId replyPost = Some (str "1")
  ∧ storage_getItem calmWorld ∅ (str "1") = Ok None
  ∧ mastodonStatusToBskyPost calmWorld ∅ replyPost
    = Throw (TypeError (str "Cannot read properties of undefined (reading 'bsky')"))
  ∧ ledger (fst (processItem calmWorld (initialState ∅) replyPost)) !! str "4"
    = Some failureEntry
  ∧ published (fst (processItem calmWorld (initialState ∅) replyPost)) = [].
Proof.
  split; [reflexivity|]. split; [reflexivity|].
  split; [vm_compute; reflexivity|]. split; vm_compute; reflexivity.
Qed.

(** The other half of C2 holds: a parent recorded as failed gives a post
    without reply reference. *)
Example reply_to_failed_parent_has_no_reply :
  reply <$> match mastodonStatusToBskyPost calmWorld
                    {[ str "1" := failureEntry ]} replyPost with
            | Ok p => Some p
            | Throw _ => None
            end
  = Some None.
Proof. vm_compute. reflexivity. Qed.

(** C3 fails on the script: [includeEvent] admits the event that announces
    [videoPost], whose attachment is a video. *)
Lemma includeEvent_admits_non_image_attachment :
  ¬ (∀ (X : Externals) e p,
       payload e = PStatus p ->
       (∃ a, a ∈ mediaAttachments p ∧ ma_type a ≠ str "image") ->
       @includeEvent X e = false).
Proof.
  intros Hclaim.
  specialize (Hclaim asciiExternals (updateOf videoPost) videoPost eq_refl).
  assert (includeEvent (updateOf videoPost) = true) as Hadmit
    by (vm_compute; reflexivity).
  rewrite Hclaim in Hadmit; [discriminate|].
  eexists. split; [left|]. vm_compute. discriminate.
Qed.

Lemma stream_drops_non_image_attachments_witness :
  (∃ a, a ∈ mediaAttachments videoPost ∧ ma_type a ≠ str "image")
  ∧ fst (streamStep (updateOf videoPost)) = None
  ∧ snd (streamStep (updateOf videoPost)) = [LogSkipping]
  ∧ videoPost ∉ getMastodonStatusStream [updateOf helloWorld; updateOf videoPost].
Proof.
  assert (∃ a, a ∈ mediaAttachments videoPost ∧ ma_type a ≠ str "image") as Hv.
  { eexists. split; [left|]. vm_compute. discriminate. }
  split; [exact Hv|].
  destruct (stream_drops_non_image_attachments videoPost Hv)
    as (H1 & H2 & H3 & _).
  split; [by apply H1|]. split; [|by apply H3].
  apply H2; [done|]. vm_compute. reflexivity.
Defined.

Lemma reply_to_recorded_root_witness :
  inReplyToId replyPost = Some (str "1") ∧ str "1" ≠ []
  ∧ ledger afterHello !! str "1"
    = Some {| bsky := Some {| ids_post := refOf HELLO_WORLD; ids_root := None |} |}
  ∧ ∃ p, mastodonStatusToBskyPost calmWorld (ledger afterHello) replyPost = Ok p
         ∧ reply p = Some {| parent := refOf HELLO_WORLD;
                             root := refOf HELLO_WORLD |}.
Proof.
  assert (ledger afterHello !! str "1"
          = Some {| bsky := Some {| ids_post := refOf HELLO_WORLD;
                                    ids_root := None |} |}) as Hentry
    by (vm_compute; reflexivity).
  split; [reflexivity|]. split; [discriminate|]. split; [exact Hentry|].
  eexists. split; [vm_compute; reflexivity|].
  refine (proj2 (reply_to_recorded_root calmWorld (ledger afterHello) replyPost
                   (str "1") _ _ eq_refl _ Hentry _) eq_refl).
  - discriminate.
  - vm_compute. reflexivity.
Defined.

(** C5 fails on the script: the entry written for [helloWorld], which is not
    a reply, has [null] where the claim expects the post identity. *)
Lemma root_post_entry_root_is_not_the_post :
  ¬ (∀ (X : Externals) w s st bskyPost posted,
       inReplyToId st = None ->
       @crossPost X w s st = Ok (bskyPost, posted) ->
       setItem_fault w (id st) (successEntry bskyPost posted) = None ->
       ledger (fst (@processItem X w s st)) !! id st
       = Some {| bsky := Some {| ids_post := posted;
                                 ids_root := Some posted |} |}).
Proof.
  intros Hclaim.
  assert (crossPost calmWorld (initialState ∅) helloWorld
          = Ok ({| text := HELLO_WORLD; facets := None; langs := [EN];
                   post_createdAt := createdAt helloWorld;
                   reply := None; embed := None |}, refOf HELLO_WORLD)) as Hc
    by (vm_compute; reflexivity).
  specialize (Hclaim asciiExternals calmWorld (initialState ∅) helloWorld
                _ _ eq_refl Hc eq_refl).
  vm_compute in Hclaim. discriminate Hclaim.
Qed.

Lemma root_post_entry_has_null_root_witness :
  truthy (inReplyToId helloWorld) = false
  ∧ ledger (fst (processItem calmWorld (initialState ∅) helloWorld)) !! str "1"
    = Some {| bsky := Some {| ids_post := refOf HELLO_WORLD;
                              ids_root := None |} |}.
Proof.
  split; [reflexivity|].
  refine (proj1 (proj2 (root_post_entry_has_null_root calmWorld (initialState ∅)
                          helloWorld _ (refOf HELLO_WORLD) eq_refl _ eq_refl))).
  vm_compute. reflexivity.
Defined.

Lemma transload_is_all_or_nothing_witness :
  (∃ u, u ∈ map ma_url (mediaAttachments galleryPost)
        ∧ downloadOrUploadFails brokenImageWorld u = true)
  ∧ ∃ u cause,
      mastodonMediaToBskyEmbeds brokenImageWorld (mediaAttachments galleryPost)
      = Throw (JsErrorCause (str "Transloading " ++ u ++ str " failed:") cause).
Proof.
  assert (∃ u, u ∈ map ma_url (mediaAttachments galleryPost)
               ∧ downloadOrUploadFails brokenImageWorld u = true) as Hfail.
  { exists (str "https://example/b.png"). split; [right; left|].
    vm_compute. reflexivity. }
  split; [exact Hfail|].
  destruct (transload_is_all_or_nothing brokenImageWorld
              (map ma_url (mediaAttachments galleryPost)))
    as (_ & _ & Hbatch).
  destruct (Hbatch Hfail) as (u & cause & _ & _ & _ & Hembed).
  exists u, cause. by apply Hembed.
Defined.

Example gallery_with_broken_image :
  mastodonMediaToBskyEmbeds brokenImageWorld (mediaAttachments galleryPost)
  = Throw (JsErrorCause (str "Transloading https://example/b.png failed:")
             (JsError (str "Download returned status undefined"))).
Proof. vm_compute. reflexivity. Qed.

(** C7 fails on the script.  In [stormWorld] the submission of [helloWorld]
    is rejected and the write of the failure entry fails as well: the
    exception leaves the loop body, no entry is written and the next event,
    which announces [galleryPost], is never processed. *)
Lemma failed_failure_write_halts_the_loop :
  crossPost stormWorld (initialState ∅) helloWorld
  = Throw (Rejected (str "UpstreamFailure"))
  ∧ ingest [(updateOf helloWorld, stormWorld); (updateOf galleryPost, calmWorld)]
      (initialState ∅)
    = ({| ledger := ∅; published := []; console := [LogStatus helloWorld];
          setItems := [] |},
       Some (Rejected (str "ENOSPC"))).
Proof. split; vm_compute; reflexivity. Qed.

(** C8 fails on the script: the key "1" is written twice, and the failure
    entry of the first attempt is replaced by a success entry. *)
Lemma redelivered_status_overwrites_its_entry :
  setItems (fst (ingest deliveredTwice (initialState ∅)))
  = [(str "1", failureEntry);
     (str "1", {| bsky := Some {| ids_post := refOf HELLO_WORLD;
                                  ids_root := None |} |})]
  ∧ ledger (fst (ingest (take 1 deliveredTwice) (initialState ∅))) !! str "1"
    = Some failureEntry
  ∧ ledger (fst (ingest deliveredTwice (initialState ∅))) !! str "1"
    = Some {| bsky := Some {| ids_post := refOf HELLO_WORLD;
                              ids_root := None |} |}
  ∧ ¬ NoDup (map fst (setItems (fst (ingest deliveredTwice (initialState ∅))))).
Proof.
  assert (setItems (fst (ingest deliveredTwice (initialState ∅)))
          = [(str "1", failureEntry);
             (str "1", {| bsky := Some {| ids_post := refOf HELLO_WORLD;
                                          ids_root := None |} |})]) as Hw
    by (vm_compute; reflexivity).
  split; [exact Hw|]. split; [vm_compute; reflexivity|].
  split; [vm_compute; reflexivity|].
  rewrite Hw. cbn [map fst]. intros [Hnot _]%NoDup_cons. apply Hnot. left.
Qed.

Lemma ledger_written_once_per_delivery_witness :
  NoDup (deliveredIds rootThenReply)
  ∧ NoDup (map fst (setItems (fst (ingest rootThenReply (initialState ∅))))).
Proof.
  assert (NoDup (deliveredIds rootThenReply)) as Hids.
  { change (deliveredIds rootThenReply) with [str "1"; str "4"].
    apply NoDup_cons. split; [|apply NoDup_singleton].
    intros Hin%list_elem_of_singleton. discriminate Hin. }
  split; [exact Hids|].
  destruct (ledger_written_once_per_delivery rootThenReply (initialState ∅))
    as (_ & _ & new & Hnew & _ & Hnodup).
  rewrite Hnew. cbn [setItems initialState app]. by apply Hnodup.
Defined.

Lemma short_text_is_normalized_and_stripped_witness :
  (countGraphemes (stripHtml (injectNewlines (content helloWorld))) <= 300)%nat
  ∧ reformatText helloWorld = stripHtml (injectNewlines (content helloWorld))
  ∧ stripHtml (injectNewlines (content helloWorld)) = HELLO_WORLD.
Proof.
  assert (countGraphemes (stripHtml (injectNewlines (content helloWorld)))
          <= 300)%nat as Hshort by (vm_compute; lia).
  split; [exact Hshort|]. split; [|vm_compute; reflexivity].
  exact (proj1 (short_text_is_normalized_and_stripped helloWorld Hshort)).
Defined.


(** ** Instances of the further properties *)

Lemma long_text_unchanged_when_no_word_reaches_budget_witness :
  is_Some (language wowPost)
  ∧ (300 < countGraphemes (strippedText wowPost))%nat
  ∧ reformatText wowPost = strippedText wowPost.
Proof.
  assert (300 < countGraphemes (strippedText wowPost))%nat as Hlong
    by (vm_compute; lia).
  split; [by eexists|]. split; [exact Hlong|].
  destruct (long_text_unchanged_when_no_word_reaches_budget wowPost)
    as [Hiff Himp].
  apply Himp; [by eexists | exact Hlong |]. apply Hiff.
  vm_compute. reflexivity.
Defined.

Lemma truncated_text_fits_witness :
  is_Some (language loremPost)
  ∧ (300 < countGraphemes (strippedText loremPost))%nat
  ∧ ends_with (url loremPost) (reformatText loremPost) = true
  ∧ (countGraphemes (reformatText loremPost) <= 300)%nat.
Proof.
  assert (300 < countGraphemes (strippedText loremPost))%nat as Hlong
    by (vm_compute; lia).
  split; [by eexists|]. split; [exact Hlong|].
  destruct (truncated_text_fits loremPost
              (str "lorem" ++ concat (repeat (str " lorem") 45)
               ++ ELLIPSIS_SPACE ++ str "https://example/6")
              (ex_intro _ (str "en") eq_refl) Hlong)
    as (Hr & Hends & pre & post & Hseg & Hr' & Hfit);
    [vm_compute; reflexivity|].
  rewrite Hr. split; [exact Hends|].
  apply Hfit; [reflexivity | vm_compute; lia |].
  rewrite Hr'. cbn [countGraphemes asciiExternals].
  rewrite !length_app. cbn. lia.
Defined.

Lemma long_text_with_early_stop_keeps_nothing_witness :
  is_Some (language tokenPost)
  ∧ (300 < countGraphemes (strippedText tokenPost))%nat
  ∧ wordSegments (language tokenPost) (strippedText tokenPost)
    = [] ++ [(repeat 97%N 301, true)]
  ∧ reformatText tokenPost = ELLIPSIS_SPACE ++ url tokenPost.
Proof.
  assert (300 < countGraphemes (strippedText tokenPost))%nat as Hlong
    by (vm_compute; lia).
  assert (wordSegments (language tokenPost) (strippedText tokenPost)
          = [] ++ [(repeat 97%N 301, true)]) as Hseg
    by (vm_compute; reflexivity).
  split; [by eexists|]. split; [exact Hlong|]. split; [exact Hseg|].
  apply (long_text_with_early_stop_keeps_nothing tokenPost [] _ []
           (ex_intro _ (str "en") eq_refl) Hlong Hseg);
    [constructor|].
  left. apply Z.leb_le. vm_compute. reflexivity.
Defined.

Lemma truncated_snippet_is_prefix_witness :
  is_Some (language loremPost)
  ∧ (300 < countGraphemes (strippedText loremPost))%nat
  ∧ ∃ snippet rest,
      reformatText loremPost = snippet ++ ELLIPSIS_SPACE ++ url loremPost
      ∧ strippedText loremPost = snippet ++ rest.
Proof.
  assert (300 < countGraphemes (strippedText loremPost))%nat as Hlong
    by (vm_compute; lia).
  split; [by eexists|]. split; [exact Hlong|].
  destruct (truncated_snippet_is_prefix loremPost
              (str "lorem" ++ concat (repeat (str " lorem") 45)
               ++ ELLIPSIS_SPACE ++ str "https://example/6")
              (ex_intro _ (str "en") eq_refl) Hlong)
    as (snippet & rest & Hr & Htext & _);
    [vm_compute; reflexivity | vm_compute; reflexivity |].
  by exists snippet, rest.
Defined.

Lemma image_embed_is_aligned_witness :
  ∃ images,
    mastodonMediaToBskyEmbeds calmWorld (mediaAttachments galleryPost)
    = Ok (EmbedImages images)
    ∧ length images = 2%nat.
Proof.
  destruct (mastodonMediaToBskyEmbeds calmWorld (mediaAttachments galleryPost))
    as [embed|e] eqn:E; [|vm_compute in E; discriminate E].
  destruct (image_embed_is_aligned _ _ _ E) as (images & -> & Hlen & _).
  by exists images.
Defined.

Lemma assembled_post_is_valid_and_faithful_witness :
  ∃ p, mastodonStatusToBskyPost calmWorld ∅ helloWorld = Ok p
       ∧ text p = reformatText helloWorld
       ∧ v_success (validateRecord p) = true.
Proof.
  destruct (mastodonStatusToBskyPost calmWorld ∅ helloWorld) as [p|e] eqn:E;
    [|vm_compute in E; discriminate E].
  destruct (assembled_post_is_valid_and_faithful _ _ _ _ E)
    as (Ht & _ & _ & _ & Hv).
  by exists p.
Defined.

Lemma assembled_embed_priority_witness :
  is_Some (card galleryWithCard)
  ∧ ∃ p images,
      mastodonStatusToBskyPost calmWorld ∅ galleryWithCard = Ok p
      ∧ embed p = Some (EmbedImages images)
      ∧ length images = 2%nat.
Proof.
  split; [by eexists|].
  destruct (mastodonStatusToBskyPost calmWorld ∅ galleryWithCard) as [p|e] eqn:E;
    [|vm_compute in E; discriminate E].
  destruct (assembled_embed_priority _ _ _ _ E) as (images & Hem & Hlen).
  by exists p, images.
Defined.

Lemma assembler_reads_only_the_parent_entry_witness :
  mastodonStatusToBskyPost calmWorld (ledger afterHello) replyPost
  = mastodonStatusToBskyPost calmWorld
      (<[str "9" := failureEntry]> (ledger afterHello)) replyPost.
Proof.
  apply assembler_reads_only_the_parent_entry.
  intros key Hkey. vm_compute in Hkey. injection Hkey as <-.
  vm_compute. reflexivity.
Defined.

Lemma reply_entry_inherits_root_witness :
  inReplyToId replyPost = Some (str "1")
  ∧ ledger afterHello !! str "1"
    = Some {| bsky := Some {| ids_post := refOf HELLO_WORLD; ids_root := None |} |}
  ∧ ∃ posted,
      ledger (fst (processItem calmWorld afterHello replyPost)) !! str "4"
      = Some {| bsky := Some {| ids_post := posted;
                                ids_root := Some (refOf HELLO_WORLD) |} |}.
Proof.
  assert (ledger afterHello !! str "1"
          = Some {| bsky := Some {| ids_post := refOf HELLO_WORLD;
                                    ids_root := None |} |}) as Hentry
    by (vm_compute; reflexivity).
  split; [reflexivity|]. split; [exact Hentry|].
  destruct (crossPost calmWorld afterHello replyPost) as [[bskyPost posted]|e]
    eqn:Hc; [|vm_compute in Hc; discriminate Hc].
  exists posted.
  refine (proj1 (proj2 (reply_entry_inherits_root calmWorld afterHello replyPost
                          (str "1") _ bskyPost posted eq_refl _ Hentry Hc
                          eq_refl))).
  discriminate.
Defined.

Lemma calm_runs_store_everything e w :
  (e, w) ∈ rootThenReply -> ∀ k v, setItem_fault w k v = None.
Proof.
  unfold rootThenReply.
  intros [[= -> ->]|[= -> ->]%list_elem_of_singleton]%elem_of_cons; reflexivity.
Defined.

Lemma ingest_runs_to_the_end_when_failures_are_stored_witness :
  snd (ingest rootThenReply (initialState ∅)) = None.
Proof.
  apply ingest_runs_to_the_end_when_failures_are_stored.
  intros e w Hin k. by apply (calm_runs_store_everything e w).
Defined.

Lemma every_delivered_status_is_recorded_witness :
  is_Some (ledger (fst (ingest rootThenReply (initialState ∅))) !! str "1")
  ∧ is_Some (ledger (fst (ingest rootThenReply (initialState ∅))) !! str "4").
Proof.
  destruct (every_delivered_status_is_recorded rootThenReply (initialState ∅)
              calm_runs_store_everything) as [_ Hids].
  change (deliveredIds rootThenReply) with [str "1"; str "4"] in Hids.
  split; apply Hids; [left|right; left].
Defined.

Lemma dropped_events_change_nothing_witness :
  ingest [(updateOf videoPost, calmWorld)] (initialState ∅)
  = ({| ledger := ∅; published := []; console := [LogSkipping];
        setItems := [] |}, None).
Proof.
  refine (proj1 (dropped_events_change_nothing
                   [(updateOf videoPost, calmWorld)] (initialState ∅) _)).
  intros e w [= -> ->]%list_elem_of_singleton. vm_compute. reflexivity.
Defined.

Lemma failed_cross_post_is_recorded_and_skipped_witness :
  ingest [(updateOf helloWorld, rejectingWorld); (updateOf replyPost, calmWorld)]
    (initialState ∅)
  = ingest [(updateOf replyPost, calmWorld)]
      {| ledger := {[ str "1" := failureEntry ]};
         published := [];
         console := [LogStatus helloWorld;
                     ErrCrossPosting (Rejected (str "UpstreamFailure"))];
         setItems := [(str "1", failureEntry)] |}.
Proof.
  apply (failed_cross_post_is_recorded_and_skipped
           (updateOf helloWorld) rejectingWorld
           [(updateOf replyPost, calmWorld)] (initialState ∅) helloWorld);
    vm_compute; reflexivity.
Defined.

Lemma storage_failure_keeps_the_post_published_witness :
  ∃ p posted,
    ingest [(updateOf helloWorld, diskFullWorld); (updateOf replyPost, calmWorld)]
      (initialState ∅)
    = ingest [(updateOf replyPost, calmWorld)]
        {| ledger := ∅;
           published := [(p, posted)];
           console := [LogStatus helloWorld;
                       ErrStorageFailed (Rejected (str "ENOSPC"))];
           setItems := [] |}.
Proof.
  destruct (crossPost diskFullWorld (initialState ∅) helloWorld)
    as [[p posted]|e] eqn:Hc; [|vm_compute in Hc; discriminate Hc].
  exists p, posted.
  apply (storage_failure_keeps_the_post_published
           (updateOf helloWorld) diskFullWorld
           [(updateOf replyPost, calmWorld)] (initialState ∅) helloWorld
           p posted (Rejected (str "ENOSPC")));
    [vm_compute; reflexivity | exact Hc | reflexivity].
Defined.

Lemma reply_to_failed_parent_starts_a_thread_witness :
  ledger afterFailedHello !! str "1" = Some failureEntry
  ∧ ∃ p posted,
      crossPost calmWorld afterFailedHello replyPost = Ok (p, posted)
      ∧ reply p = None
      ∧ ledger (fst (processItem calmWorld afterFailedHello replyPost)) !! str "4"
        = Some {| bsky := Some {| ids_post := posted; ids_root := None |} |}.
Proof.
  assert (ledger afterFailedHello !! str "1" = Some failureEntry) as Hentry
    by (vm_compute; reflexivity).
  split; [exact Hentry|].
  destruct (crossPost calmWorld afterFailedHello replyPost)
    as [[p posted]|e] eqn:Hc; [|vm_compute in Hc; discriminate Hc].
  exists p, posted. split; [reflexivity|].
  exact (reply_to_failed_parent_starts_a_thread calmWorld afterFailedHello
           replyPost (str "1") p posted eq_refl Hentry Hc eq_refl).
Defined.
